(** * Flappy Biry: a shallow embedding of [flappy_biry.py]

    The program is one module: constants, a handful of helper functions
    and a [while running] loop.  Each iteration of the loop (a frame)
    drains the event queue, runs the game logic when [game_active] holds
    and draws.  The module-level variables become the record [Game]; the
    readings of the external collaborators ([pygame.event.get],
    [pygame.time.get_ticks], [random.randint]) become the record [Frame].

    Numbers.  [bird_y] and [bird_velocity] start as Python ints and turn
    into floats once [gravity = 0.5] has been added.  Every value they
    take is a multiple of one half of small magnitude, which binary
    floating point represents and adds exactly, so they are embedded as
    exact rationals ([Q]); see [half_integral_values] at the end of the
    file.  All other numbers are Python ints ([Z]). *)

From Stdlib Require Import ZArith QArith Qround List Sorted Bool Lia Lqa.
From Stdlib Require String DecimalString.
Import String.StringSyntax.
Delimit Scope string_scope with string.
Import ListNotations.
Open Scope Z_scope.

(** ** Game constants *)

Definition SCREEN_WIDTH : Z := 600.
Definition SCREEN_HEIGHT : Z := 800.
Definition GROUND_HEIGHT : Z := 100.
Definition PIPE_WIDTH : Z := 80.
Definition PIPE_GAP : Z := 200.
Definition PIPE_SPAWN_INTERVAL : Z := 1500.
Definition PIPE_SPEED : Z := 3.

Definition bird_width : Z := 40.
Definition bird_height : Z := 30.
Definition bird_x : Z := 100.
Definition gravity : Q := 1 # 2.
Definition jump_power : Z := -9.

Definition ground_y : Z := SCREEN_HEIGHT - GROUND_HEIGHT.

(** ** The external collaborators *)

(** [pygame.Rect]: integer left, top, width and height.  A float
    coordinate is converted by a C cast, that is truncated towards 0. *)
Record Rect := mkRect { rect_x : Z; rect_y : Z; rect_w : Z; rect_h : Z }.

Definition rect_left (r : Rect) : Z := rect_x r.
Definition rect_top (r : Rect) : Z := rect_y r.
Definition rect_right (r : Rect) : Z := rect_x r + rect_w r.
Definition rect_bottom (r : Rect) : Z := rect_y r + rect_h r.

Definition Qtruncate (q : Q) : Z := Z.quot (Qnum q) (Zpos (Qden q)).

(** [Rect.colliderect] of pygame 2: rectangles of size 0 collide with
    nothing, the others collide when their interiors overlap. *)
Definition colliderect (a b : Rect) : bool :=
  if (rect_w a =? 0) || (rect_h a =? 0) || (rect_w b =? 0) || (rect_h b =? 0)
  then false
  else (Z.min (rect_x a) (rect_x a + rect_w a) <? Z.max (rect_x b) (rect_x b + rect_w b))
    && (Z.min (rect_y a) (rect_y a + rect_h a) <? Z.max (rect_y b) (rect_y b + rect_h b))
    && (Z.max (rect_x a) (rect_x a + rect_w a) >? Z.min (rect_x b) (rect_x b + rect_w b))
    && (Z.max (rect_y a) (rect_y a + rect_h a) >? Z.min (rect_y b) (rect_y b + rect_h b)).

(** [random.randint lo hi] returns some integer of [lo..hi]; which one is
    decided by the generator's state, here the reading [entropy]. *)
Definition randint (lo hi entropy : Z) : Z := lo + entropy mod (hi - lo + 1).

(** The events of [pygame.event.get()] as far as the loop tells them apart. *)
Inductive Key := K_SPACE | K_OTHER.
Inductive Event := QUIT | KEYDOWN (key : Key) | OTHER_EVENT.

(** What one iteration of the loop reads from outside: the drained event
    queue, the clock as read while the events are handled and as read in
    the game logic, and the state of the random generator. *)
Record Frame := mkFrame {
  events : list Event;
  ticks_at_events : Z;
  ticks_at_logic : Z;
  entropy : Z
}.

(** ** Data model *)

(** An entry of [pipes]: the dict with keys 'x', 'top_height',
    'bottom_height' and 'passed'. *)
Record Pipe := mkPipe {
  pipe_x : Z;
  top_height : Z;
  bottom_height : Z;
  passed : bool
}.

(** The module-level variables the loop reads and writes. *)
Record Game := mkGame {
  bird_y : Q;
  bird_velocity : Q;
  pipes : list Pipe;
  score : Z;
  game_active : bool;
  last_pipe_spawn_time : Z;
  running : bool
}.

(** The variables as the module initialises them; [t0] is the clock
    reading of line 52. *)
Definition initial (t0 : Z) : Game :=
  {| bird_y := inject_Z (SCREEN_HEIGHT / 2);
     bird_velocity := 0;
     pipes := [];
     score := 0;
     game_active := false;
     last_pipe_spawn_time := t0;
     running := true |}.

(** ** Functions *)

Definition Qltb (p q : Q) : bool :=
  match (p ?= q)%Q with Lt => true | _ => false end.

(** The dict that [create_pipe] builds: a pair at the right screen edge
    whose gap is placed by [random.randint]. *)
Definition new_pipe (entropy : Z) : Pipe :=
  let max_top_pipe_height := SCREEN_HEIGHT - GROUND_HEIGHT - PIPE_GAP - 50 in
  let min_top_pipe_height := 50 in
  let top_pipe_height := randint min_top_pipe_height max_top_pipe_height entropy in
  let bottom_pipe_height := SCREEN_HEIGHT - GROUND_HEIGHT - top_pipe_height - PIPE_GAP in
  {| pipe_x := SCREEN_WIDTH;
     top_height := top_pipe_height;
     bottom_height := bottom_pipe_height;
     passed := false |}.

(** [create_pipe]: the new pair is appended to [pipes]. *)
Definition create_pipe (entropy : Z) (pipes : list Pipe) : list Pipe :=
  pipes ++ [new_pipe entropy].

(** The body of the loop of [move_pipes]: [pipe['x'] -= PIPE_SPEED]. *)
Definition shift_pipe (pipe : Pipe) : Pipe :=
  {| pipe_x := pipe_x pipe - PIPE_SPEED;
     top_height := top_height pipe;
     bottom_height := bottom_height pipe;
     passed := passed pipe |}.

Definition on_screen (pipe : Pipe) : bool := pipe_x pipe + PIPE_WIDTH >? 0.

Definition move_pipes (pipes : list Pipe) : list Pipe :=
  filter on_screen (map shift_pipe pipes).

Definition top_pipe_rect (pipe : Pipe) : Rect :=
  mkRect (pipe_x pipe) 0 PIPE_WIDTH (top_height pipe).

Definition bottom_pipe_rect (pipe : Pipe) : Rect :=
  mkRect (pipe_x pipe) (SCREEN_HEIGHT - bottom_height pipe - GROUND_HEIGHT)
         PIPE_WIDTH (bottom_height pipe).

(** The loop of [check_collision], leaving at the first hit. *)
Fixpoint pipe_collision (bird_rect : Rect) (pipes : list Pipe) : bool :=
  match pipes with
  | [] => false
  | pipe :: rest =>
      if colliderect bird_rect (top_pipe_rect pipe)
         || colliderect bird_rect (bottom_pipe_rect pipe)
      then true
      else pipe_collision bird_rect rest
  end.

Definition check_collision (bird_rect : Rect) (pipes : list Pipe) : bool :=
  if rect_bottom bird_rect >=? ground_y then true
  else pipe_collision bird_rect pipes.

(** The test of [update_score] for one pair. *)
Definition scores_now (bird_rect : Rect) (pipe : Pipe) : bool :=
  (pipe_x pipe + PIPE_WIDTH <? rect_left bird_rect) && negb (passed pipe).

Definition mark_passed (pipe : Pipe) : Pipe :=
  {| pipe_x := pipe_x pipe;
     top_height := top_height pipe;
     bottom_height := bottom_height pipe;
     passed := true |}.

(** [update_score] returns the new score and, as it writes 'passed' into
    the dicts of the list it is given, the list as it leaves it. *)
Fixpoint update_score (bird_rect : Rect) (pipes : list Pipe) (current_score : Z)
  : Z * list Pipe :=
  match pipes with
  | [] => (current_score, [])
  | pipe :: rest =>
      if scores_now bird_rect pipe
      then let (final, rest') := update_score bird_rect rest (current_score + 1) in
           (final, mark_passed pipe :: rest')
      else let (final, rest') := update_score bird_rect rest current_score in
           (final, pipe :: rest')
  end.

(** [pygame.Rect(bird_x, bird_y, bird_width, bird_height)]. *)
Definition bird_rect_at (y : Q) : Rect :=
  mkRect bird_x (Qtruncate y) bird_width bird_height.

(** ** The loop *)

(** One event of the [for event in pygame.event.get()] loop. *)
Definition handle_event (ticks : Z) (event : Event) (g : Game) : Game :=
  match event with
  | QUIT =>
      {| bird_y := bird_y g; bird_velocity := bird_velocity g; pipes := pipes g;
         score := score g; game_active := game_active g;
         last_pipe_spawn_time := last_pipe_spawn_time g; running := false |}
  | KEYDOWN K_SPACE =>
      if negb (game_active g)
      then {| bird_y := inject_Z (SCREEN_HEIGHT / 2); bird_velocity := 0;
              pipes := []; score := 0; game_active := true;
              last_pipe_spawn_time := ticks; running := running g |}
      else {| bird_y := bird_y g; bird_velocity := inject_Z jump_power;
              pipes := pipes g; score := score g; game_active := game_active g;
              last_pipe_spawn_time := last_pipe_spawn_time g;
              running := running g |}
  | _ => g
  end.

Definition handle_events (ticks : Z) (evs : list Event) (g : Game) : Game :=
  fold_left (fun g event => handle_event ticks event g) evs g.

(** Lines 174-180: gravity, integration and the clamp at the top. *)
Definition fall (y v : Q) : Q * Q :=
  let v1 := (v + gravity)%Q in
  let y1 := (y + v1)%Q in
  if Qltb y1 0 then (0%Q, 0%Q) else (y1, v1).

(** Lines 183-186: the spawn timer. *)
Definition spawn_due (current_time : Z) (g : Game) : bool :=
  current_time - last_pipe_spawn_time g >? PIPE_SPAWN_INTERVAL.

(** The block under [if game_active:] (lines 172-199). *)
Definition game_logic (current_time entropy : Z) (g : Game) : Game :=
  if game_active g then
    let (y, v) := fall (bird_y g) (bird_velocity g) in
    let spawn := spawn_due current_time g in
    let pipes1 := if spawn then create_pipe entropy (pipes g) else pipes g in
    let last := if spawn then current_time else last_pipe_spawn_time g in
    let pipes2 := move_pipes pipes1 in
    let bird_rect := bird_rect_at y in
    let active := if check_collision bird_rect pipes2 then false else true in
    let (score', pipes3) := update_score bird_rect pipes2 (score g) in
    {| bird_y := y; bird_velocity := v; pipes := pipes3; score := score';
       game_active := active; last_pipe_spawn_time := last;
       running := running g |}
  else g.

(** What a frame draws, in order (lines 202-215). *)
Inductive DrawCmd :=
| Fill_white
| Draw_ground
| Draw_pipes (pipes : list Pipe)
| Draw_bird (x : Z) (y : Q)
| Display_score (score : Z)
| Game_over_screen (score : Z)
| Start_screen.

Definition draw (g : Game) : list DrawCmd :=
  [Fill_white; Draw_ground] ++
  (if game_active g then
     [Draw_pipes (pipes g); Draw_bird bird_x (bird_y g); Display_score (score g)]
   else if score g >? 0 then
     [Game_over_screen (score g)]
   else
     [Start_screen; Draw_bird bird_x (bird_y g)]).

(** One iteration of [while running]: the state it leaves. *)
Definition frame (f : Frame) (g : Game) : Game :=
  game_logic (ticks_at_logic f) (entropy f)
             (handle_events (ticks_at_events f) (events f) g).

(** The loop over the frames the outside world supplies; it stops at the
    first test of [running] that fails. *)
Fixpoint main_loop (frames : list Frame) (g : Game) : Game :=
  match frames with
  | [] => g
  | f :: rest => if running g then main_loop rest (frame f g) else g
  end.

(** What the loop has put on the display, frame by frame. *)
Fixpoint displayed (frames : list Frame) (g : Game) : list (list DrawCmd) :=
  match frames with
  | [] => []
  | f :: rest =>
      if running g then draw (frame f g) :: displayed rest (frame f g) else []
  end.

(** ** Stages of the game logic, named for the proofs *)

(** What [update_score] does to one pair. *)
Definition score_one (bird_rect : Rect) (pipe : Pipe) : Pipe :=
  if scores_now bird_rect pipe then mark_passed pipe else pipe.

(** [pipes] after the spawn timer has been looked at. *)
Definition spawn_stage (current_time entropy : Z) (g : Game) : list Pipe :=
  if spawn_due current_time g then create_pipe entropy (pipes g) else pipes g.

(** The states the program can be in at the top of the loop. *)
Definition reachable (g : Game) : Prop :=
  exists t0 frames, g = main_loop frames (initial t0).

(** ** Instrumentation: which pair is which

    The dicts of [pipes] carry no identity.  To speak about one pair over
    its life the loop is run with ghost data beside it: a frame counter,
    the pairs of [pipes] tagged with the number of the frame that spawned
    them, the pairs spawned since the last (re)start as they were when
    spawned, and the tag of the pair behind each increment of the score
    since the last (re)start.  The program state is computed by [frame]
    itself; the ghost data only observes it. *)

Definition is_space (event : Event) : bool :=
  match event with KEYDOWN K_SPACE => true | _ => false end.

(** The events contain a (re)start: SPACE while the game is not active. *)
Definition restarted (evs : list Event) (g : Game) : bool :=
  negb (game_active g) && existsb is_space evs.

Definition move_tagged (tps : list (Z * Pipe)) : list (Z * Pipe) :=
  filter (fun tp => on_screen (snd tp))
         (map (fun tp => (fst tp, shift_pipe (snd tp))) tps).

Definition score_tagged (bird_rect : Rect) (tps : list (Z * Pipe))
  : list (Z * Pipe) :=
  map (fun tp => (fst tp, score_one bird_rect (snd tp))) tps.

Definition scoring_tags (bird_rect : Rect) (tps : list (Z * Pipe)) : list Z :=
  map fst (filter (fun tp => scores_now bird_rect (snd tp)) tps).

Record Traced := mkTraced {
  game : Game;
  frame_no : Z;
  tagged : list (Z * Pipe);
  spawned : list (Z * Pipe);
  scored : list Z
}.

Definition initial_traced (t0 : Z) : Traced :=
  {| game := initial t0; frame_no := 0; tagged := []; spawned := [];
     scored := [] |}.

(** The events of frame [f]: a (re)start empties [pipes] and zeroes the
    score, so it drops the ghost data of the run before. *)
Definition events_traced (f : Frame) (T : Traced) : Traced :=
  let fresh := restarted (events f) (game T) in
  {| game := handle_events (ticks_at_events f) (events f) (game T);
     frame_no := frame_no T;
     tagged := if fresh then [] else tagged T;
     spawned := if fresh then [] else spawned T;
     scored := if fresh then [] else scored T |}.

(** The pair the spawn timer adds in the game logic, tagged with the
    number of the frame. *)
Definition born (current_time entropy : Z) (T : Traced) : list (Z * Pipe) :=
  if game_active (game T) && spawn_due current_time (game T)
  then [(frame_no T, new_pipe entropy)] else [].

(** The pairs as [update_score] meets them: spawned and moved. *)
Definition met (current_time entropy : Z) (T : Traced) : list (Z * Pipe) :=
  move_tagged (tagged T ++ born current_time entropy T).

(** The tags of the pairs for which the game logic increments the score. *)
Definition scoring (current_time entropy : Z) (T : Traced) : list Z :=
  if game_active (game T)
  then scoring_tags (bird_rect_at (bird_y (game_logic current_time entropy (game T))))
                    (met current_time entropy T)
  else [].

Definition logic_traced (current_time entropy : Z) (T : Traced) : Traced :=
  {| game := game_logic current_time entropy (game T);
     frame_no := frame_no T + 1;
     tagged :=
       if game_active (game T)
       then score_tagged
              (bird_rect_at (bird_y (game_logic current_time entropy (game T))))
              (met current_time entropy T)
       else tagged T;
     spawned := spawned T ++ born current_time entropy T;
     scored := scored T ++ scoring current_time entropy T |}.

Definition frame_traced (f : Frame) (T : Traced) : Traced :=
  logic_traced (ticks_at_logic f) (entropy f) (events_traced f T).

(** The pairs [update_score] meets in frame [f] and the tags of those it
    gives a point for. *)
Definition met_in_frame (f : Frame) (T : Traced) : list (Z * Pipe) :=
  met (ticks_at_logic f) (entropy f) (events_traced f T).

Definition scored_in_frame (f : Frame) (T : Traced) : list Z :=
  scoring (ticks_at_logic f) (entropy f) (events_traced f T).

Fixpoint main_loop_traced (frames : list Frame) (T : Traced) : Traced :=
  match frames with
  | [] => T
  | f :: rest =>
      if running (game T) then main_loop_traced rest (frame_traced f T) else T
  end.

Definition reachable_traced (T : Traced) : Prop :=
  exists t0 frames, T = main_loop_traced frames (initial_traced t0).

(** ** What holds of every state the instrumented loop reaches *)

(** The geometry of a pair: the two segments, the gap and the ground fill
    the height of the screen, and each segment is at least 50 high. *)
Definition heights_ok (pipe : Pipe) : Prop :=
  top_height pipe + PIPE_GAP + bottom_height pipe + GROUND_HEIGHT
  = SCREEN_HEIGHT /\
  50 <= top_height pipe /\ 50 <= bottom_height pipe.

(** Later in the list means spawned later and further to the right. *)
Definition later_and_right (a b : Z * Pipe) : Prop :=
  fst a < fst b /\ pipe_x (snd a) < pipe_x (snd b).

Record Inv (T : Traced) : Prop := mkInv {
  inv_erase : map snd (tagged T) = pipes (game T);
  inv_order : StronglySorted later_and_right (tagged T);
  inv_tags : Forall (fun tp => fst tp < frame_no T) (spawned T);
  inv_spawn_order : StronglySorted Z.lt (map fst (spawned T));
  inv_origin : forall t p, In (t, p) (tagged T) ->
      exists p0, In (t, p0) (spawned T) /\
                 top_height p = top_height p0 /\
                 bottom_height p = bottom_height p0;
  inv_spawned : forall t p0, In (t, p0) (spawned T) ->
      heights_ok p0 /\ pipe_x p0 = SCREEN_WIDTH /\ passed p0 = false;
  inv_pipe : forall t p, In (t, p) (tagged T) ->
      pipe_x p <= SCREEN_WIDTH - PIPE_SPEED /\ 0 < pipe_x p + PIPE_WIDTH /\
      (passed p = true <-> pipe_x p + PIPE_WIDTH < bird_x) /\
      (passed p = true <-> In t (scored T));
  inv_nodup : NoDup (scored T);
  inv_score : score (game T) = Z.of_nat (length (scored T));
  inv_scored : forall t, In t (scored T) -> In t (map fst (spawned T));
  inv_gone : forall t, In t (map fst (spawned T)) ->
      In t (map fst (tagged T)) \/ In t (scored T)
}.

(** ** The values of position and velocity

    Twice the position and twice the velocity are integers of small
    magnitude.  [energy_bound] is what keeps the velocity small while the
    game is active: [2y - v^2 - v/2], counted in quarters, does not change
    in free fall and is at least its value after a jump at the top. *)
Definition energy_bound (Y V : Z) : Prop := 2 * Y - V * V - V >= -306.

Definition half_integral (g : Game) : Prop :=
  exists Y V : Z,
    (bird_y g == Y # 2)%Q /\ (bird_velocity g == V # 2)%Q /\
    0 <= Y <= 1400 /\ -56 <= V <= 56 /\
    (game_active g = true -> Y < 1340 /\ energy_bound Y V).

(** ** Two sentences of the specification, as worded

    They are compared with the program further down. *)

(** "Score increments exactly once per obstacle pair": each pair spawned
    since the (re)start is behind exactly one increment of the score. *)
Definition every_pair_scored_exactly_once (T : Traced) : Prop :=
  forall t p0, In (t, p0) (spawned T) ->
               count_occ Z.eq_dec (scored T) t = 1%nat.

(** "Ordered by spawn time (equivalently by descending horizontal
    position)": of two pairs in the collection the one spawned earlier
    has the larger x. *)
Definition earlier_spawned_has_larger_x (T : Traced) : Prop :=
  forall t1 p1 t2 p2,
    In (t1, p1) (tagged T) -> In (t2, p2) (tagged T) ->
    t1 < t2 -> pipe_x p1 > pipe_x p2.

(** ** The mode of the game

    The program keeps no mode variable.  The drawing section (lines
    207-215) tells three modes apart by [game_active] and the score:
    playing, the game-over state (after playing) for a positive score,
    and the start-screen state otherwise. *)
Inductive Mode := Not_started | Active | Game_over.

Definition mode (g : Game) : Mode :=
  if game_active g then Active
  else if score g >? 0 then Game_over
  else Not_started.

(** ** The boxes as pygame stores them

    A [pygame.Rect] keeps its fields and forms its sums in C ints.
    [bird_rect_at] and [colliderect] above take them as integers without
    bound, which is the same on every box that fits (see
    [frame_c_reachable] at the end of the file).  For a position beyond
    that range the stored value is another one, taken here as the
    two's-complement wrap-around; at 2^31 this is the value the
    conversion instruction of x86 yields as well. *)
Definition INT_MIN : Z := - 2 ^ 31.
Definition INT_MAX : Z := 2 ^ 31 - 1.

Definition c_int (z : Z) : Z := (z - INT_MIN) mod 2 ^ 32 + INT_MIN.

Definition stored (r : Rect) : Rect :=
  mkRect (c_int (rect_x r)) (c_int (rect_y r))
         (c_int (rect_w r)) (c_int (rect_h r)).

(** [Rect.bottom] on the stored fields. *)
Definition bottom_c (r : Rect) : Z := c_int (rect_y r + rect_h r).

Definition colliderect_c (a b : Rect) : bool :=
  if (rect_w a =? 0) || (rect_h a =? 0) || (rect_w b =? 0) || (rect_h b =? 0)
  then false
  else (Z.min (rect_x a) (c_int (rect_x a + rect_w a))
        <? Z.max (rect_x b) (c_int (rect_x b + rect_w b)))
    && (Z.min (rect_y a) (c_int (rect_y a + rect_h a))
        <? Z.max (rect_y b) (c_int (rect_y b + rect_h b)))
    && (Z.max (rect_x a) (c_int (rect_x a + rect_w a))
        >? Z.min (rect_x b) (c_int (rect_x b + rect_w b)))
    && (Z.max (rect_y a) (c_int (rect_y a + rect_h a))
        >? Z.min (rect_y b) (c_int (rect_y b + rect_h b))).

Fixpoint pipe_collision_c (bird_rect : Rect) (pipes : list Pipe) : bool :=
  match pipes with
  | [] => false
  | pipe :: rest =>
      if colliderect_c bird_rect (stored (top_pipe_rect pipe))
         || colliderect_c bird_rect (stored (bottom_pipe_rect pipe))
      then true
      else pipe_collision_c bird_rect rest
  end.

Definition check_collision_c (bird_rect : Rect) (pipes : list Pipe) : bool :=
  if bottom_c bird_rect >=? ground_y then true
  else pipe_collision_c bird_rect pipes.

(** The game logic with the bird's box as stored. *)
Definition game_logic_c (current_time entropy : Z) (g : Game) : Game :=
  if game_active g then
    let (y, v) := fall (bird_y g) (bird_velocity g) in
    let spawn := spawn_due current_time g in
    let pipes1 := if spawn then create_pipe entropy (pipes g) else pipes g in
    let last := if spawn then current_time else last_pipe_spawn_time g in
    let pipes2 := move_pipes pipes1 in
    let bird_rect := stored (bird_rect_at y) in
    let active := if check_collision_c bird_rect pipes2 then false else true in
    let (score', pipes3) := update_score bird_rect pipes2 (score g) in
    {| bird_y := y; bird_velocity := v; pipes := pipes3; score := score';
       game_active := active; last_pipe_spawn_time := last;
       running := running g |}
  else g.

Definition frame_c (f : Frame) (g : Game) : Game :=
  game_logic_c (ticks_at_logic f) (entropy f)
               (handle_events (ticks_at_events f) (events f) g).

(** Boxes whose fields leave room for the sums [colliderect] forms, and
    pairs whose boxes are such. *)
Definition roomy (z : Z) : Prop := - 2 ^ 29 <= z <= 2 ^ 29.

Definition small_rect (r : Rect) : Prop :=
  roomy (rect_x r) /\ roomy (rect_y r) /\ roomy (rect_w r) /\ roomy (rect_h r).

Definition small_pipe (pipe : Pipe) : Prop :=
  - 2 ^ 20 <= pipe_x pipe <= 2 ^ 20 /\
  0 <= top_height pipe <= 2 ^ 20 /\ 0 <= bottom_height pipe <= 2 ^ 20.

(** ** Concrete frames and runs, used as test inputs *)

(** A frame without events and a frame with one SPACE key press; [t] is
    the clock reading and [e] the state of the random generator. *)
Definition still (t e : Z) : Frame := mkFrame [] t t e.
Definition press (t e : Z) : Frame := mkFrame [KEYDOWN K_SPACE] t t e.

(** Start, then never touch a key: the bird drops to the ground. *)
Definition drop_run : list Frame := press 0 0 :: repeat (still 0 0) 40.

(** The same start, up to the last frame before the ground. *)
Definition drop_eve : list Frame := press 0 0 :: repeat (still 0 0) 31.

(** Start, let a pair spawn, then never touch a key. *)
Definition drop_run_with_pipe : list Frame :=
  press 0 0 :: still 2000 0 :: repeat (still 2000 0) 40.

(** Start and let two pairs spawn in consecutive frames (a slow clock). *)
Definition two_pipes_run : list Frame :=
  [press 0 0; still 2000 200; still 4000 150].

(** A run on a slow clock: two pairs (gaps at 250..450 and 200..400)
    spawn in consecutive frames, and the bird is flown through both for
    191 more frames. *)
Definition flight : list Frame :=
  two_pipes_run
  ++ repeat (press 4000 0) 4 ++ repeat (still 4000 0) 32
  ++ press 4000 0 :: repeat (still 4000 0) 34
  ++ press 4000 0 :: repeat (still 4000 0) 34
  ++ press 4000 0 :: repeat (still 4000 0) 8
  ++ press 4000 0 :: repeat (still 4000 0) 39
  ++ press 4000 0 :: repeat (still 4000 0) 35.

(** The state [flight] leads to, with position and velocity in lowest
    terms (see [flight_reaches_death_eve]). *)
Definition death_eve : Game :=
  mkGame (723 # 2) 9
         [mkPipe 21 250 250 false; mkPipe 24 200 300 false] 0 true 4000 true.

(** ** Drawing, primitive by primitive

    The calls the drawing functions make on the display: [screen.fill],
    [pygame.draw.rect] (whose rectangle argument is converted to a
    [pygame.Rect], so a float coordinate is truncated) and the blit of a
    rendered text, placed by the centre of its rectangle. *)

Definition Color : Type := Z * Z * Z.
Definition WHITE : Color := (255, 255, 255).
Definition BLACK : Color := (0, 0, 0).
Definition GREEN : Color := (0, 255, 0).
Definition BLUE : Color := (0, 0, 255).

Definition ground_x : Z := 0.

(** The sizes of [font] and [small_font]. *)
Definition font : Z := 74.
Definition small_font : Z := 50.

Inductive Paint :=
| Fill (color : Color)
| Rect_drawn (color : Color) (rect : Rect) (border_radius : Z)
| Text_blit (font_size : Z) (text : String.string) (color : Color)
            (center : Z * Z).

(** Python's [str] on an int. *)
Definition str (n : Z) : String.string :=
  DecimalString.NilZero.string_of_int (Z.to_int n).

Definition draw_bird (x : Z) (y : Q) : list Paint :=
  [Rect_drawn BLUE (mkRect x (Qtruncate y) bird_width bird_height) 5].

Definition draw_pipes (pipes : list Pipe) : list Paint :=
  flat_map
    (fun pipe =>
       [Rect_drawn GREEN (mkRect (pipe_x pipe) 0 PIPE_WIDTH (top_height pipe)) 5;
        Rect_drawn GREEN
          (mkRect (pipe_x pipe)
                  (SCREEN_HEIGHT - bottom_height pipe - GROUND_HEIGHT)
                  PIPE_WIDTH (bottom_height pipe)) 5])
    pipes.

Definition display_score (score : Z) : list Paint :=
  [Text_blit font (str score) BLACK (SCREEN_WIDTH / 2, 50)].

Definition game_over_screen (score : Z) : list Paint :=
  [Text_blit font "GAME OVER"%string BLACK (SCREEN_WIDTH / 2, SCREEN_HEIGHT / 2 - 50);
   Text_blit small_font (String.append "Score: "%string (str score)) BLACK
             (SCREEN_WIDTH / 2, SCREEN_HEIGHT / 2 + 10);
   Text_blit small_font "Press SPACE to Restart"%string BLACK
             (SCREEN_WIDTH / 2, SCREEN_HEIGHT / 2 + 70)].

Definition start_screen : list Paint :=
  [Text_blit font "Flappy Biry"%string BLACK (SCREEN_WIDTH / 2, SCREEN_HEIGHT / 2 - 50);
   Text_blit small_font "Press SPACE to Start"%string BLACK
             (SCREEN_WIDTH / 2, SCREEN_HEIGHT / 2 + 20)].

(** The rectangle of the ground (line 205). *)
Definition ground_rect : Rect :=
  mkRect ground_x ground_y SCREEN_WIDTH GROUND_HEIGHT.

(** The drawing section of the loop (lines 202-215), call by call. *)
Definition paint (g : Game) : list Paint :=
  [Fill WHITE; Rect_drawn (100, 200, 50) ground_rect 5] ++
  (if game_active g then
     draw_pipes (pipes g) ++ draw_bird bird_x (bird_y g)
     ++ display_score (score g)
   else if score g >? 0 then
     game_over_screen (score g)
   else
     start_screen ++ draw_bird bird_x (bird_y g)).

(** What each entry of [draw] stands for. *)
Definition render (cmd : DrawCmd) : list Paint :=
  match cmd with
  | Fill_white => [Fill WHITE]
  | Draw_ground => [Rect_drawn (100, 200, 50) ground_rect 5]
  | Draw_pipes pipes => draw_pipes pipes
  | Draw_bird x y => draw_bird x y
  | Display_score score => display_score score
  | Game_over_screen score => game_over_screen score
  | Start_screen => start_screen
  end.

(** ** More test inputs and notions for the properties below *)

(** [n] ticks of [move_pipes]. *)
Definition moved_times (n : nat) (pipes : list Pipe) : list Pipe :=
  Nat.iter n move_pipes pipes.

(** [n] ticks of gravity on position and velocity. *)
Definition fall_times (n : nat) (yv : Q * Q) : Q * Q :=
  Nat.iter n (fun yv => fall (fst yv) (snd yv)) yv.

(** The horizontal positions a pair takes: 600 less a multiple of the
    speed. *)
Definition on_grid (pipe : Pipe) : Prop := pipe_x pipe mod PIPE_SPEED = 0.

(** * Properties *)

(** ** Arithmetic of the embedding *)

Lemma Qltb_lt (p q : Q) : Qltb p q = true <-> (p < q)%Q.
Proof.
  unfold Qltb. rewrite Qlt_alt.
  destruct (p ?= q)%Q; split; intro H; congruence.
Qed.

Lemma Qltb_ge (p q : Q) : Qltb p q = false <-> (q <= p)%Q.
Proof.
  split; intro H.
  - apply Qnot_lt_le. intro L. apply Qltb_lt in L. congruence.
  - destruct (Qltb p q) eqn:E; [|reflexivity].
    apply Qltb_lt in E. exfalso. exact (Qlt_not_le _ _ E H).
Qed.

(** On the values a bird position takes (never negative once clamped)
    truncation is the floor. *)
Lemma Qtruncate_floor (q : Q) : (0 <= q)%Q -> Qtruncate q = Qfloor q.
Proof.
  destruct q as [n d]. unfold Qle, Qtruncate, Qfloor. simpl. intro H.
  apply Z.quot_div_nonneg; lia.
Qed.

Lemma Qtruncate_lower (z : Z) (q : Q) :
  0 <= z -> (inject_Z z <= q)%Q -> z <= Qtruncate q.
Proof.
  intros Hz H.
  assert (H0 : (0 <= q)%Q).
  { apply Qle_trans with (inject_Z z); [|exact H].
    change 0%Q with (inject_Z 0). rewrite <- Zle_Qle. exact Hz. }
  rewrite (Qtruncate_floor q H0).
  rewrite <- (Qfloor_Z z). apply Qfloor_resp_le. exact H.
Qed.

Lemma randint_range (lo hi e : Z) : lo <= hi -> lo <= randint lo hi e <= hi.
Proof.
  intro H. unfold randint.
  pose proof (Z.mod_pos_bound e (hi - lo + 1)). lia.
Qed.

(** Every integer of the range is returned for some state of the generator. *)
Lemma randint_onto (lo hi n : Z) :
  lo <= n <= hi -> exists e, randint lo hi e = n.
Proof.
  intro H. exists (n - lo). unfold randint.
  rewrite Z.mod_small by lia. lia.
Qed.

(** For rectangles of positive size [colliderect] is the overlap of the
    interiors. *)
Lemma colliderect_overlap (a b : Rect) :
  0 < rect_w a -> 0 < rect_h a -> 0 < rect_w b -> 0 < rect_h b ->
  colliderect a b = true <->
  rect_left a < rect_right b /\ rect_top a < rect_bottom b /\
  rect_right a > rect_left b /\ rect_bottom a > rect_top b.
Proof.
  intros Hwa Hha Hwb Hhb.
  unfold colliderect, rect_left, rect_right, rect_top, rect_bottom.
  replace (rect_w a =? 0) with false by (symmetry; apply Z.eqb_neq; lia).
  replace (rect_h a =? 0) with false by (symmetry; apply Z.eqb_neq; lia).
  replace (rect_w b =? 0) with false by (symmetry; apply Z.eqb_neq; lia).
  replace (rect_h b =? 0) with false by (symmetry; apply Z.eqb_neq; lia).
  simpl. rewrite !andb_true_iff, !Z.ltb_lt, !Z.gtb_lt. lia.
Qed.

(** ** The helper functions *)

Lemma fall_cases (y v : Q) :
  ((y + (v + gravity) < 0)%Q /\ fall y v = (0%Q, 0%Q)) \/
  ((0 <= y + (v + gravity))%Q /\
   fall y v = ((y + (v + gravity))%Q, (v + gravity)%Q)).
Proof.
  unfold fall. destruct (Qltb (y + (v + gravity)) 0) eqn:E.
  - left. split; [apply Qltb_lt; exact E | reflexivity].
  - right. split; [apply Qltb_ge; exact E | reflexivity].
Qed.

Lemma fall_nonneg (y v : Q) : (0 <= fst (fall y v))%Q.
Proof.
  destruct (fall_cases y v) as [[_ E]|[H E]]; rewrite E; simpl.
  - apply Qle_refl.
  - exact H.
Qed.

Lemma update_score_pipes (r : Rect) (ps : list Pipe) (sc : Z) :
  snd (update_score r ps sc) = map (score_one r) ps.
Proof.
  revert sc. induction ps as [|p ps IH]; intro sc; simpl; [reflexivity|].
  unfold score_one at 1. destruct (scores_now r p).
  - specialize (IH (sc + 1)). destruct (update_score r ps (sc + 1)).
    simpl in *. now rewrite IH.
  - specialize (IH sc). destruct (update_score r ps sc).
    simpl in *. now rewrite IH.
Qed.

Lemma update_score_count (r : Rect) (ps : list Pipe) (sc : Z) :
  fst (update_score r ps sc)
  = sc + Z.of_nat (length (filter (scores_now r) ps)).
Proof.
  revert sc. induction ps as [|p ps IH]; intro sc; simpl; [lia|].
  destruct (scores_now r p).
  - specialize (IH (sc + 1)). destruct (update_score r ps (sc + 1)).
    simpl in *. lia.
  - specialize (IH sc). destruct (update_score r ps sc). simpl in *. lia.
Qed.

Lemma pipe_collision_iff (r : Rect) (ps : list Pipe) :
  pipe_collision r ps = true <->
  exists pipe, In pipe ps /\
    (colliderect r (top_pipe_rect pipe) = true \/
     colliderect r (bottom_pipe_rect pipe) = true).
Proof.
  induction ps as [|p ps IH]; simpl.
  - split; [discriminate | intros (q & [] & _)].
  - destruct (colliderect r (top_pipe_rect p) || colliderect r (bottom_pipe_rect p))
      eqn:E.
    + split; [|reflexivity]. intros _. exists p. split; [now left|].
      apply orb_true_iff. exact E.
    + rewrite IH. apply orb_false_iff in E. destruct E as [E1 E2].
      split.
      * intros (q & Hq & Hc). exists q. split; [now right | exact Hc].
      * intros (q & [Hq|Hq] & Hc).
        -- subst q. destruct Hc; congruence.
        -- exists q. split; assumption.
Qed.

Lemma check_collision_iff (r : Rect) (ps : list Pipe) :
  check_collision r ps = true <->
  rect_bottom r >= ground_y \/
  exists pipe, In pipe ps /\
    (colliderect r (top_pipe_rect pipe) = true \/
     colliderect r (bottom_pipe_rect pipe) = true).
Proof.
  unfold check_collision. rewrite <- pipe_collision_iff.
  destruct (rect_bottom r >=? ground_y) eqn:E.
  - split; [|reflexivity]. intros _. left. apply Z.geb_le in E. lia.
  - split; [now right|]. intros [H|H]; [|exact H].
    rewrite Z.geb_leb in E. apply Z.leb_gt in E. lia.
Qed.

(** Scoring leaves the boxes of the pairs alone. *)
Lemma score_one_rects (r : Rect) (pipe : Pipe) :
  top_pipe_rect (score_one r pipe) = top_pipe_rect pipe /\
  bottom_pipe_rect (score_one r pipe) = bottom_pipe_rect pipe.
Proof.
  unfold score_one. destruct (scores_now r pipe); split; reflexivity.
Qed.

Lemma in_scored_boxes (r : Rect) (ps : list Pipe) (P : Rect -> Rect -> Prop) :
  (exists pipe, In pipe (map (score_one r) ps) /\
     P (top_pipe_rect pipe) (bottom_pipe_rect pipe)) <->
  (exists pipe, In pipe ps /\ P (top_pipe_rect pipe) (bottom_pipe_rect pipe)).
Proof.
  split.
  - intros (q & Hq & HP). apply in_map_iff in Hq. destruct Hq as (p & <- & Hp).
    exists p. split; [exact Hp|].
    destruct (score_one_rects r p) as [E1 E2]. now rewrite E1, E2 in HP.
  - intros (p & Hp & HP). exists (score_one r p). split.
    + apply in_map. exact Hp.
    + destruct (score_one_rects r p) as [E1 E2]. now rewrite E1, E2.
Qed.

(** ** The game logic, field by field *)

Lemma game_logic_active (now e : Z) (g : Game) :
  game_active g = true ->
  let y := fst (fall (bird_y g) (bird_velocity g)) in
  let moved := move_pipes (spawn_stage now e g) in
  game_logic now e g =
  {| bird_y := y;
     bird_velocity := snd (fall (bird_y g) (bird_velocity g));
     pipes := map (score_one (bird_rect_at y)) moved;
     score := score g
              + Z.of_nat (length (filter (scores_now (bird_rect_at y)) moved));
     game_active := negb (check_collision (bird_rect_at y) moved);
     last_pipe_spawn_time :=
       if spawn_due now g then now else last_pipe_spawn_time g;
     running := running g |}.
Proof.
  intros Ha y moved. unfold game_logic. rewrite Ha.
  subst y moved. unfold spawn_stage.
  destruct (fall (bird_y g) (bird_velocity g)) as [y v]. simpl.
  set (ps := move_pipes _).
  pose proof (update_score_pipes (bird_rect_at y) ps (score g)) as Hp.
  pose proof (update_score_count (bird_rect_at y) ps (score g)) as Hc.
  destruct (update_score (bird_rect_at y) ps (score g)) as [sc' ps'].
  simpl in Hp, Hc. subst sc' ps'.
  destruct (check_collision (bird_rect_at y) ps); reflexivity.
Qed.

Lemma game_logic_idle (now e : Z) (g : Game) :
  game_active g = false -> game_logic now e g = g.
Proof. intro H. unfold game_logic. now rewrite H. Qed.

(** ** The event loop *)

Lemma handle_events_cons (t : Z) (ev : Event) (evs : list Event) (g : Game) :
  handle_events t (ev :: evs) g = handle_events t evs (handle_event t ev g).
Proof. reflexivity. Qed.

(** While the game is active the events change the velocity and [running]
    at most. *)
Lemma handle_events_active (t : Z) (evs : list Event) (g : Game) :
  game_active g = true ->
  let g1 := handle_events t evs g in
  game_active g1 = true /\ bird_y g1 = bird_y g /\ pipes g1 = pipes g /\
  score g1 = score g /\ last_pipe_spawn_time g1 = last_pipe_spawn_time g.
Proof.
  revert g. induction evs as [|ev evs IH]; intros g Ha; cbv zeta.
  - now repeat split.
  - rewrite !handle_events_cons.
    assert (H : game_active (handle_event t ev g) = true /\
                bird_y (handle_event t ev g) = bird_y g /\
                pipes (handle_event t ev g) = pipes g /\
                score (handle_event t ev g) = score g /\
                last_pipe_spawn_time (handle_event t ev g)
                = last_pipe_spawn_time g).
    { destruct ev as [|[|]|]; simpl; rewrite ?Ha; simpl; now repeat split. }
    destruct H as (H1 & H2 & H3 & H4 & H5).
    destruct (IH _ H1) as (I1 & I2 & I3 & I4 & I5).
    repeat split; congruence.
Qed.

(** Events without SPACE change [running] at most. *)
Lemma handle_events_no_space (t : Z) (evs : list Event) (g : Game) :
  existsb is_space evs = false ->
  let g1 := handle_events t evs g in
  game_active g1 = game_active g /\ bird_y g1 = bird_y g /\
  bird_velocity g1 = bird_velocity g /\ pipes g1 = pipes g /\
  score g1 = score g /\ last_pipe_spawn_time g1 = last_pipe_spawn_time g.
Proof.
  revert g. induction evs as [|ev evs IH]; intros g Hs; cbv zeta.
  - now repeat split.
  - rewrite !handle_events_cons. simpl in Hs. apply orb_false_iff in Hs.
    destruct Hs as [Hev Hevs].
    destruct (IH (handle_event t ev g) Hevs) as (I1 & I2 & I3 & I4 & I5 & I6).
    destruct ev as [|[|]|]; simpl in *; try discriminate;
      repeat split; congruence.
Qed.

(** What the events of a frame do to the variables of a run. *)
Lemma handle_events_run (t : Z) (evs : list Event) (g : Game) :
  let g1 := handle_events t evs g in
  game_active g1 = game_active g || existsb is_space evs /\
  pipes g1 = (if restarted evs g then [] else pipes g) /\
  score g1 = (if restarted evs g then 0 else score g) /\
  last_pipe_spawn_time g1
  = (if restarted evs g then t else last_pipe_spawn_time g).
Proof.
  revert g. induction evs as [|ev evs IH]; intro g.
  - unfold restarted. simpl. rewrite andb_false_r, orb_false_r. now repeat split.
  - cbv zeta. rewrite !handle_events_cons.
    destruct (game_active g) eqn:Ha.
    + destruct (handle_events_active t (ev :: evs) g Ha) as (H1 & _ & H3 & H4 & H5).
      rewrite handle_events_cons in H1, H3, H4, H5.
      unfold restarted. rewrite Ha. simpl. now repeat split.
    + destruct (is_space ev) eqn:Hs.
      * destruct ev as [|[|]|]; try discriminate. simpl handle_event.
        rewrite Ha. simpl negb. cbv iota.
        match goal with |- context [handle_events t evs ?s] => set (g' := s) end.
        destruct (handle_events_active t evs g' eq_refl) as (H1 & _ & H3 & H4 & H5).
        unfold restarted. rewrite Ha. simpl.
        rewrite H1, H3, H4, H5. now repeat split.
      * specialize (IH (handle_event t ev g)). cbv zeta in IH.
        assert (E : game_active (handle_event t ev g) = false /\
                    pipes (handle_event t ev g) = pipes g /\
                    score (handle_event t ev g) = score g /\
                    last_pipe_spawn_time (handle_event t ev g)
                    = last_pipe_spawn_time g).
        { destruct ev as [|[|]|]; simpl in *; try discriminate;
            now repeat split. }
        destruct E as (E1 & E2 & E3 & E4).
        destruct IH as (I1 & I2 & I3 & I4).
        unfold restarted in *. rewrite E1 in *. rewrite Ha.
        simpl existsb. rewrite Hs. simpl in *.
        rewrite I1, I2, I3, I4, E2, E3, E4. now repeat split.
Qed.

(** Once the game is not active, frames without SPACE leave everything
    but [running] as it is. *)
Lemma frozen_while_idle (later : list Frame) (g : Game) :
  game_active g = false ->
  Forall (fun f => existsb is_space (events f) = false) later ->
  let g' := main_loop later g in
  game_active g' = false /\ bird_y g' = bird_y g /\
  bird_velocity g' = bird_velocity g /\ pipes g' = pipes g /\
  score g' = score g /\ last_pipe_spawn_time g' = last_pipe_spawn_time g.
Proof.
  revert g. induction later as [|f later IH]; intros g Ha Hl; simpl.
  - now repeat split.
  - destruct (running g); [|now repeat split].
    inversion Hl as [|? ? Hf Hl']; subst.
    destruct (handle_events_no_space (ticks_at_events f) (events f) g Hf)
      as (H1 & H2 & H3 & H4 & H5 & H6).
    assert (E : frame f g = handle_events (ticks_at_events f) (events f) g).
    { unfold frame. apply game_logic_idle. congruence. }
    rewrite E.
    destruct (IH (handle_events (ticks_at_events f) (events f) g)
                 ltac:(congruence) Hl') as (I1 & I2 & I3 & I4 & I5 & I6).
    repeat split; congruence.
Qed.

(** ** Bird physics *)

(** C1.  On a tick on which the game logic runs (the game is active once
    the events are handled), the velocity is first increased by
    [gravity], which is one half, the new velocity is then added to the
    position, and a position above the top (y < 0) is replaced by 0
    together with the velocity. *)
Theorem tick_applies_gravity_then_integrates_then_clamps
    (f : Frame) (g : Game) :
  let g1 := handle_events (ticks_at_events f) (events f) g in
  let v1 := (bird_velocity g1 + gravity)%Q in
  let y1 := (bird_y g1 + v1)%Q in
  game_active g1 = true ->
  gravity = (1 # 2)%Q /\
  ((y1 < 0)%Q ->
   bird_y (frame f g) = 0%Q /\ bird_velocity (frame f g) = 0%Q) /\
  ((0 <= y1)%Q ->
   bird_y (frame f g) = y1 /\ bird_velocity (frame f g) = v1).
Proof.
  intros g1 v1 y1 Ha. unfold frame. fold g1.
  rewrite (game_logic_active _ _ g1 Ha). simpl.
  split; [reflexivity|].
  destruct (fall_cases (bird_y g1) (bird_velocity g1)) as [[H E]|[H E]];
    fold v1 in H, E; fold y1 in H, E; rewrite E; simpl; split; intro H'.
  - now split.
  - exfalso. exact (Qlt_not_le _ _ H H').
  - exfalso. exact (Qlt_not_le _ _ H' H).
  - now split.
Qed.

Lemma tick_applies_gravity_witness :
  game_active (handle_events 0 [KEYDOWN K_SPACE] (initial 0)) = true /\
  bird_velocity (frame (press 0 0) (initial 0)) = (0 + (1 # 2))%Q.
Proof.
  split; [reflexivity|].
  apply (tick_applies_gravity_then_integrates_then_clamps
           (press 0 0) (initial 0)); [reflexivity | discriminate].
Defined.

(** ** Key presses *)

(** C5.  SPACE while the game is not active (before the first start and
    after a collision alike) resets the position to half the screen
    height and the velocity to 0, empties [pipes], zeroes the score and
    makes the game active. *)
Theorem space_while_idle_resets (ticks : Z) (g : Game) :
  game_active g = false ->
  let g' := handle_event ticks (KEYDOWN K_SPACE) g in
  bird_y g' = inject_Z (SCREEN_HEIGHT / 2) /\ SCREEN_HEIGHT / 2 = 400 /\
  bird_velocity g' = 0%Q /\ pipes g' = [] /\ score g' = 0 /\
  game_active g' = true.
Proof.
  intros Ha g'. subst g'. simpl. rewrite Ha. simpl. now repeat split.
Qed.

Lemma space_while_idle_resets_witness :
  game_active (main_loop drop_run (initial 0)) = false /\
  pipes (handle_event 7 (KEYDOWN K_SPACE) (main_loop drop_run (initial 0)))
  = [].
Proof.
  split; [vm_compute; reflexivity|].
  apply (space_while_idle_resets 7 (main_loop drop_run (initial 0))).
  vm_compute; reflexivity.
Defined.

(** C6.  SPACE while the game is active sets the velocity to
    [jump_power], which is -9, whatever it was; position, pipes, score
    and mode (and the spawn timer and [running]) stay as they are. *)
Theorem space_while_active_jumps (ticks : Z) (g : Game) :
  game_active g = true ->
  let g' := handle_event ticks (KEYDOWN K_SPACE) g in
  bird_velocity g' = inject_Z jump_power /\ jump_power = -9 /\
  bird_y g' = bird_y g /\ pipes g' = pipes g /\ score g' = score g /\
  game_active g' = game_active g /\
  last_pipe_spawn_time g' = last_pipe_spawn_time g /\
  running g' = running g.
Proof.
  intros Ha g'. subst g'. simpl. rewrite Ha. simpl. now repeat split.
Qed.

Lemma space_while_active_jumps_witness :
  game_active (main_loop two_pipes_run (initial 0)) = true /\
  bird_velocity
    (handle_event 9 (KEYDOWN K_SPACE) (main_loop two_pipes_run (initial 0)))
  = inject_Z (-9).
Proof.
  split; [vm_compute; reflexivity|].
  apply (space_while_active_jumps 9 (main_loop two_pipes_run (initial 0))).
  vm_compute; reflexivity.
Defined.

(** ** Which screen is drawn *)

Lemma draw_game_over (g : Game) :
  game_active g = false -> score g > 0 ->
  draw g = [Fill_white; Draw_ground; Game_over_screen (score g)].
Proof.
  intros Ha Hs. unfold draw. rewrite Ha.
  replace (score g >? 0) with true by (symmetry; apply Z.gtb_lt; lia).
  reflexivity.
Qed.

(** C8.  While the game is not active, the game-over screen is drawn
    exactly when the score is positive; with a score that is not
    positive, and so after a collision that ended a run without a point,
    the start screen (with the bird) is drawn instead. *)
Theorem game_over_screen_iff_score_positive (g : Game) :
  game_active g = false ->
  ((exists n, In (Game_over_screen n) (draw g)) <-> score g > 0) /\
  (In Start_screen (draw g) <-> ~ score g > 0) /\
  (score g > 0 ->
   draw g = [Fill_white; Draw_ground; Game_over_screen (score g)]) /\
  (~ score g > 0 ->
   draw g = [Fill_white; Draw_ground; Start_screen;
             Draw_bird bird_x (bird_y g)]).
Proof.
  intro Ha. unfold draw. rewrite Ha.
  destruct (score g >? 0) eqn:E.
  - apply Z.gtb_lt in E. simpl. repeat split.
    + intros _. lia.
    + intros _. exists (score g). right. right. now left.
    + intros [H|[H|[H|[]]]]; discriminate.
    + intro H. lia.
    + intro H. lia.
  - rewrite Z.gtb_ltb in E. apply Z.ltb_ge in E. simpl. repeat split.
    + intros (n & [H|[H|[H|[H|[]]]]]); discriminate.
    + intro H. lia.
    + intros _. lia.
    + intros _. right. right. now left.
    + intro H. lia.
Qed.

(** The first attempt dropped on the ground without a point: the start
    screen is drawn again. *)
Lemma game_over_screen_witness :
  game_active (main_loop drop_run (initial 0)) = false /\
  rect_bottom (bird_rect_at (bird_y (main_loop drop_run (initial 0))))
  >= ground_y /\
  In Start_screen (draw (main_loop drop_run (initial 0))).
Proof.
  split; [vm_compute; reflexivity|].
  split; [vm_compute; discriminate|].
  apply (game_over_screen_iff_score_positive (main_loop drop_run (initial 0))).
  - vm_compute; reflexivity.
  - vm_compute. discriminate.
Defined.

(** ** Collisions *)

Lemma resting_bird_reaches_ground (y v : Q) :
  (y == inject_Z (ground_y - bird_height))%Q -> (0 <= v)%Q ->
  fall y v = ((y + (v + gravity))%Q, (v + gravity)%Q) /\
  rect_bottom (bird_rect_at (y + (v + gravity))) >= ground_y.
Proof.
  intros Hy Hv.
  assert (L : (inject_Z (ground_y - bird_height) <= y + (v + gravity))%Q).
  { rewrite Hy. unfold gravity. lra. }
  split.
  - destruct (fall_cases y v) as [[H E]|[H E]]; [|exact E].
    exfalso. apply (Qlt_not_le _ _ H).
    apply Qle_trans with (inject_Z (ground_y - bird_height)); [|exact L].
    vm_compute. discriminate.
  - unfold rect_bottom, bird_rect_at. simpl.
    apply Qtruncate_lower in L; [|vm_compute; discriminate].
    unfold ground_y, bird_height in *. lia.
Qed.

(** *** The stored boxes *)

Lemma c_int_id (z : Z) : INT_MIN <= z <= INT_MAX -> c_int z = z.
Proof.
  unfold c_int, INT_MIN, INT_MAX. intro H.
  rewrite Z.mod_small; lia.
Qed.

Lemma Qtruncate_upper (z : Z) (q : Q) :
  (0 <= q)%Q -> (q <= inject_Z z)%Q -> Qtruncate q <= z.
Proof.
  intros H0 H. rewrite (Qtruncate_floor q H0).
  rewrite <- (Qfloor_Z z). now apply Qfloor_resp_le.
Qed.

Lemma scores_now_stored (y : Q) (pipe : Pipe) :
  scores_now (stored (bird_rect_at y)) pipe = scores_now (bird_rect_at y) pipe.
Proof. reflexivity. Qed.

Lemma update_score_stored (y : Q) (ps : list Pipe) (sc : Z) :
  update_score (stored (bird_rect_at y)) ps sc
  = update_score (bird_rect_at y) ps sc.
Proof.
  revert sc. induction ps as [|p ps IH]; intro sc; [reflexivity|].
  cbn [update_score]. now rewrite scores_now_stored, !IH.
Qed.

(** With the stored box the game logic differs from [game_logic] in the
    collision test alone. *)
Lemma game_logic_c_active (now e : Z) (g : Game) :
  game_active g = true ->
  let g' := game_logic now e g in
  game_logic_c now e g =
  {| bird_y := bird_y g';
     bird_velocity := bird_velocity g';
     pipes := pipes g';
     score := score g';
     game_active :=
       negb (check_collision_c (stored (bird_rect_at (bird_y g')))
                               (move_pipes (spawn_stage now e g)));
     last_pipe_spawn_time := last_pipe_spawn_time g';
     running := running g' |}.
Proof.
  intros Ha g'. subst g'. unfold game_logic_c, game_logic. rewrite Ha.
  unfold spawn_stage.
  destruct (fall (bird_y g) (bird_velocity g)) as [y v].
  cbv zeta. rewrite update_score_stored.
  set (ps := move_pipes _).
  destruct (update_score (bird_rect_at y) ps (score g)) as [sc' ps'].
  cbn [bird_y bird_velocity pipes score last_pipe_spawn_time running].
  destruct (check_collision_c (stored (bird_rect_at y)) ps);
    destruct (check_collision (bird_rect_at y) ps); reflexivity.
Qed.

Lemma game_logic_c_idle (now e : Z) (g : Game) :
  game_active g = false -> game_logic_c now e g = g.
Proof. intro H. unfold game_logic_c. now rewrite H. Qed.

(** A bird resting on the ground level, moving down no faster than the
    stored box can follow: the stored box reaches the ground. *)
Lemma resting_bird_stored (y v : Q) :
  (y == inject_Z (ground_y - bird_height))%Q ->
  (0 <= v)%Q -> (v <= inject_Z (INT_MAX - 701))%Q ->
  bottom_c (stored (bird_rect_at (y + (v + gravity)))) >= ground_y /\
  forall ps,
    check_collision_c (stored (bird_rect_at (y + (v + gravity)))) ps = true /\
    check_collision (bird_rect_at (y + (v + gravity))) ps = true.
Proof.
  intros Hy Hv Hmax.
  assert (L : (inject_Z 670 <= y + (v + gravity))%Q).
  { rewrite Hy. unfold gravity. change (inject_Z (ground_y - bird_height))
      with (inject_Z 670). lra. }
  assert (U : (y + (v + gravity) <= inject_Z (INT_MAX - 30))%Q).
  { rewrite Hy. unfold gravity.
    change (inject_Z (ground_y - bird_height)) with (670 # 1)%Q.
    change (inject_Z (INT_MAX - 30)) with (2147483617 # 1)%Q.
    change (inject_Z (INT_MAX - 701)) with (2147482946 # 1)%Q in Hmax. lra. }
  assert (P : (0 <= y + (v + gravity))%Q).
  { apply Qle_trans with (inject_Z 670); [discriminate | exact L]. }
  pose proof (Qtruncate_lower 670 _ ltac:(lia) L) as T1.
  pose proof (Qtruncate_upper _ _ P U) as T2.
  set (t := Qtruncate (y + (v + gravity))) in *.
  assert (B : bottom_c (stored (bird_rect_at (y + (v + gravity)))) = t + 30).
  { unfold bottom_c, stored, bird_rect_at. cbn [rect_x rect_y rect_w rect_h].
    fold t. change (c_int bird_height) with 30.
    unfold INT_MAX in T2.
    rewrite (c_int_id t) by (unfold INT_MIN, INT_MAX; lia).
    apply c_int_id. unfold INT_MIN, INT_MAX. lia. }
  split; [rewrite B; unfold ground_y, SCREEN_HEIGHT, GROUND_HEIGHT; lia|].
  intro ps. split.
  - unfold check_collision_c. rewrite B.
    replace (t + 30 >=? ground_y) with true; [reflexivity|].
    symmetry. apply Z.geb_le.
    unfold ground_y, SCREEN_HEIGHT, GROUND_HEIGHT. lia.
  - apply check_collision_iff. left.
    unfold rect_bottom, bird_rect_at. cbn [rect_y rect_h]. fold t.
    unfold ground_y, SCREEN_HEIGHT, GROUND_HEIGHT, bird_height. lia.
Qed.







(** ** Scoring on the tick of the collision *)

Lemma mark_passed_when_passed (pipe : Pipe) :
  passed pipe = true -> mark_passed pipe = pipe.
Proof. destruct pipe; simpl; intro H; subst; reflexivity. Qed.

(** C10.  On the tick whose collision ends the run, [update_score] still
    runs on the moved pipes after [game_active] has been cleared: the
    score grows by the number of pairs whose right edge is strictly left
    of the bird and that are not yet marked, every pair whose right edge
    is strictly left of the bird is marked in the state the tick leaves,
    and that score is the one the game-over screen displays. *)
Theorem score_updated_on_death_tick (f : Frame) (g : Game) :
  let g1 := handle_events (ticks_at_events f) (events f) g in
  let g2 := frame f g in
  let bird_rect := bird_rect_at (bird_y g2) in
  let met := move_pipes (spawn_stage (ticks_at_logic f) (entropy f) g1) in
  game_active g1 = true -> game_active g2 = false ->
  (score g2, pipes g2) = update_score bird_rect met (score g1) /\
  score g2
  = score g1
    + Z.of_nat (length (filter (fun pipe =>
                                  (pipe_x pipe + PIPE_WIDTH <? bird_x)
                                  && negb (passed pipe)) met)) /\
  (forall pipe, In pipe met -> pipe_x pipe + PIPE_WIDTH < bird_x ->
                In (mark_passed pipe) (pipes g2)) /\
  (score g2 > 0 ->
   draw g2 = [Fill_white; Draw_ground; Game_over_screen (score g2)]).
Proof.
  intros g1 g2 bird_rect met Ha Hd.
  assert (E : g2 = game_logic (ticks_at_logic f) (entropy f) g1) by reflexivity.
  rewrite (game_logic_active _ _ g1 Ha) in E. cbv zeta in E. fold met in E.
  assert (Ey : bird_y g2 = fst (fall (bird_y g1) (bird_velocity g1)))
    by (rewrite E; reflexivity).
  rewrite <- Ey in E. fold bird_rect in E.
  assert (Es : score g2 = score g1
               + Z.of_nat (length (filter (scores_now bird_rect) met)))
    by (rewrite E at 1; reflexivity).
  assert (Ep : pipes g2 = map (score_one bird_rect) met)
    by (rewrite E at 1; reflexivity).
  repeat split.
  - rewrite (surjective_pairing (update_score bird_rect met (score g1))).
    rewrite update_score_pipes, update_score_count. congruence.
  - exact Es.
  - intros pipe Hin Hx. rewrite Ep. apply in_map_iff.
    exists pipe. split; [|exact Hin].
    unfold score_one, scores_now.
    replace (pipe_x pipe + PIPE_WIDTH <? rect_left bird_rect) with true
      by (symmetry; apply Z.ltb_lt; exact Hx).
    destruct (passed pipe) eqn:P; simpl; [|reflexivity].
    symmetry. apply mark_passed_when_passed. exact P.
  - intro Hs.
    apply (draw_game_over g2 Hd). exact Hs.
Qed.

Lemma flight_reaches_death_eve :
  let g := main_loop flight (initial 0) in
  (Qred (bird_y g), Qred (bird_velocity g)) = (bird_y death_eve, bird_velocity death_eve) /\
  pipes g = pipes death_eve /\ score g = score death_eve /\
  game_active g = game_active death_eve /\
  last_pipe_spawn_time g = last_pipe_spawn_time death_eve /\
  running g = running death_eve.
Proof. vm_compute. repeat split. Qed.

(** [death_eve] continued by one frame: the bird hits the bottom pipe of
    the second pair on the very tick on which the first pair has passed
    it, and the point is still given. *)
Lemma score_updated_on_death_tick_witness :
  game_active (handle_events 4000 [] death_eve) = true /\
  game_active (frame (still 4000 0) death_eve) = false /\
  score death_eve = 0 /\
  score (frame (still 4000 0) death_eve) = 1 /\
  In (mark_passed (mkPipe 18 250 250 false))
     (pipes (frame (still 4000 0) death_eve)).
Proof.
  split; [reflexivity|].
  split; [reflexivity|].
  split; [reflexivity|].
  split; [reflexivity|].
  apply (score_updated_on_death_tick (still 4000 0) death_eve).
  - reflexivity.
  - reflexivity.
  - left. reflexivity.
  - reflexivity.
Defined.


(** ** Lists in ascending order *)

Section Ascending.
Context {A B : Type}.
Variable R : A -> A -> Prop.

Lemma StronglySorted_snoc (l : list A) (b : A) :
  StronglySorted R l -> Forall (fun a => R a b) l ->
  StronglySorted R (l ++ [b]).
Proof.
  induction 1 as [|a l Hs IH Ha]; intro Hb; simpl.
  - repeat constructor.
  - inversion Hb as [|? ? Hab Hlb]; subst. constructor.
    + apply IH. exact Hlb.
    + apply Forall_app. split; [exact Ha | now constructor].
Qed.

Lemma StronglySorted_filter (keep : A -> bool) (l : list A) :
  StronglySorted R l -> StronglySorted R (filter keep l).
Proof.
  induction 1 as [|a l Hs IH Ha]; simpl; [constructor|].
  destruct (keep a); [|exact IH].
  constructor; [exact IH|].
  apply Forall_forall. intros b Hb. apply filter_In in Hb.
  rewrite Forall_forall in Ha. apply Ha. tauto.
Qed.

Lemma StronglySorted_map (R' : B -> B -> Prop) (f : A -> B) (l : list A) :
  (forall a b, R a b -> R' (f a) (f b)) ->
  StronglySorted R l -> StronglySorted R' (map f l).
Proof.
  intro Hf. induction 1 as [|a l Hs IH Ha]; simpl; constructor.
  - exact IH.
  - apply Forall_map. revert Ha. apply Forall_impl. intro b. apply Hf.
Qed.

Lemma StronglySorted_In (l : list A) (a b : A) :
  StronglySorted R l -> In a l -> In b l -> a = b \/ R a b \/ R b a.
Proof.
  induction 1 as [|c l Hs IH Hc]; intros Ha Hb; [destruct Ha|].
  rewrite Forall_forall in Hc.
  destruct Ha as [Ha|Ha], Hb as [Hb|Hb]; subst.
  - now left.
  - right. left. now apply Hc.
  - right. right. now apply Hc.
  - now apply IH.
Qed.
End Ascending.

(** ** The ghost lists against the program's lists *)

Lemma move_tagged_erase (tps : list (Z * Pipe)) :
  map snd (move_tagged tps) = move_pipes (map snd tps).
Proof.
  unfold move_tagged, move_pipes.
  induction tps as [|[t p] tps IH]; simpl; [reflexivity|].
  destruct (on_screen (shift_pipe p)); simpl; now rewrite IH.
Qed.

Lemma score_tagged_erase (r : Rect) (tps : list (Z * Pipe)) :
  map snd (score_tagged r tps) = map (score_one r) (map snd tps).
Proof.
  unfold score_tagged. rewrite !map_map. reflexivity.
Qed.

Lemma score_tagged_tags (r : Rect) (tps : list (Z * Pipe)) :
  map fst (score_tagged r tps) = map fst tps.
Proof.
  unfold score_tagged. rewrite map_map. reflexivity.
Qed.

Lemma scoring_tags_length (r : Rect) (tps : list (Z * Pipe)) :
  length (scoring_tags r tps) = length (filter (scores_now r) (map snd tps)).
Proof.
  unfold scoring_tags. rewrite length_map.
  induction tps as [|[t p] tps IH]; simpl; [reflexivity|].
  destruct (scores_now r p); simpl; now rewrite IH.
Qed.

Lemma in_move_tagged (tps : list (Z * Pipe)) (t : Z) (q : Pipe) :
  In (t, q) (move_tagged tps) <->
  exists p, In (t, p) tps /\ q = shift_pipe p /\ on_screen q = true.
Proof.
  unfold move_tagged. rewrite filter_In, in_map_iff. simpl. split.
  - intros [([t' p] & E & Hin) Hon]. simpl in E. inversion E; subst.
    exists p. now repeat split.
  - intros (p & Hin & -> & Hon). split; [|exact Hon].
    exists (t, p). now split.
Qed.

Lemma in_score_tagged (r : Rect) (tps : list (Z * Pipe)) (t : Z) (q : Pipe) :
  In (t, q) (score_tagged r tps) <->
  exists p, In (t, p) tps /\ q = score_one r p.
Proof.
  unfold score_tagged. rewrite in_map_iff. split.
  - intros ([t' p] & E & Hin). simpl in E. inversion E; subst.
    exists p. now split.
  - intros (p & Hin & ->). exists (t, p). now split.
Qed.

Lemma in_scoring_tags (r : Rect) (tps : list (Z * Pipe)) (t : Z) :
  In t (scoring_tags r tps) <->
  exists p, In (t, p) tps /\ scores_now r p = true.
Proof.
  unfold scoring_tags. rewrite in_map_iff. split.
  - intros ([t' p] & E & Hin). simpl in E. subst t'.
    apply filter_In in Hin. exists p. exact Hin.
  - intros (p & Hin & Hs). exists (t, p). split; [reflexivity|].
    apply filter_In. now split.
Qed.

Lemma in_tags (tps : list (Z * Pipe)) (t : Z) :
  In t (map fst tps) <-> exists p, In (t, p) tps.
Proof.
  rewrite in_map_iff. split.
  - intros ([t' p] & E & Hin). simpl in E. subst. now exists p.
  - intros (p & Hin). now exists (t, p).
Qed.

(** A tag names one pair. *)
Lemma tag_names_one_pair (tps : list (Z * Pipe)) (t : Z) (p q : Pipe) :
  StronglySorted later_and_right tps ->
  In (t, p) tps -> In (t, q) tps -> p = q.
Proof.
  intros Hs Hp Hq.
  destruct (StronglySorted_In _ _ _ _ Hs Hp Hq) as [E|[[L _]|[L _]]].
  - congruence.
  - simpl in L. lia.
  - simpl in L. lia.
Qed.

Lemma sorted_tags_nodup (tps : list (Z * Pipe)) :
  StronglySorted later_and_right tps -> NoDup (map fst tps).
Proof.
  induction 1 as [|a l Hs IH Ha]; simpl; constructor; [|exact IH].
  intro Hin. apply in_map_iff in Hin. destruct Hin as (b & E & Hb).
  rewrite Forall_forall in Ha. destruct (Ha b Hb) as [L _]. lia.
Qed.

Lemma scoring_tags_nodup (r : Rect) (tps : list (Z * Pipe)) :
  NoDup (map fst tps) -> NoDup (scoring_tags r tps).
Proof.
  unfold scoring_tags.
  induction tps as [|[t p] tps IH]; simpl; intro H; [constructor|].
  inversion H as [|? ? Hn Hd]; subst.
  destruct (scores_now r p); simpl; [|now apply IH].
  constructor; [|now apply IH].
  intro Hin. apply Hn. apply in_map_iff in Hin.
  destruct Hin as (b & E & Hb). apply filter_In in Hb.
  apply in_map_iff. exists b. tauto.
Qed.


(** ** The invariant of the instrumented loop *)

Lemma new_pipe_shape (e : Z) :
  heights_ok (new_pipe e) /\ pipe_x (new_pipe e) = SCREEN_WIDTH /\
  passed (new_pipe e) = false.
Proof.
  unfold heights_ok, new_pipe. cbn [top_height bottom_height pipe_x passed].
  pose proof (randint_range 50 (SCREEN_HEIGHT - GROUND_HEIGHT - PIPE_GAP - 50) e)
    as H.
  unfold SCREEN_HEIGHT, GROUND_HEIGHT, PIPE_GAP in *. lia.
Qed.

Lemma score_one_shape (y : Q) (p : Pipe) :
  pipe_x (score_one (bird_rect_at y) p) = pipe_x p /\
  top_height (score_one (bird_rect_at y) p) = top_height p /\
  bottom_height (score_one (bird_rect_at y) p) = bottom_height p /\
  passed (score_one (bird_rect_at y) p)
  = passed p || (pipe_x p + PIPE_WIDTH <? bird_x).
Proof.
  unfold score_one, scores_now.
  change (rect_left (bird_rect_at y)) with bird_x.
  destruct (pipe_x p + PIPE_WIDTH <? bird_x); destruct p as [x th bh []];
    cbn; now repeat split.
Qed.

(** The pairs the game logic leaves, from the pairs it found. *)
Lemma in_tagged_after_logic (now e : Z) (T : Traced) (t : Z) (q : Pipe) :
  game_active (game T) = true ->
  In (t, q) (tagged (logic_traced now e T)) <->
  exists p, In (t, p) (tagged T ++ born now e T) /\
            on_screen (shift_pipe p) = true /\
            q = score_one (bird_rect_at (bird_y (game_logic now e (game T))))
                          (shift_pipe p).
Proof.
  intro Ha. unfold logic_traced. cbn [tagged]. rewrite Ha.
  rewrite in_score_tagged. unfold met. split.
  - intros (p' & Hin & ->).
    apply in_move_tagged in Hin. destruct Hin as (p & Hin & -> & Hon).
    exists p. now repeat split.
  - intros (p & Hin & Hon & ->). exists (shift_pipe p). split; [|reflexivity].
    apply in_move_tagged. exists p. now repeat split.
Qed.

Lemma in_born (now e : Z) (T : Traced) (t : Z) (p : Pipe) :
  In (t, p) (born now e T) -> t = frame_no T /\ p = new_pipe e.
Proof.
  unfold born.
  destruct (game_active (game T) && spawn_due now (game T)); [|contradiction].
  intros [E|[]]. inversion E. now split.
Qed.

Lemma Inv_initial (t0 : Z) : Inv (initial_traced t0).
Proof.
  constructor; simpl; try constructor; try reflexivity;
    try (intros; contradiction).
Qed.

Lemma Inv_events (f : Frame) (T : Traced) : Inv T -> Inv (events_traced f T).
Proof.
  intros [I1 I2 I3 I4 I5 I6 I7 I8 I9 I10 I11].
  destruct (handle_events_run (ticks_at_events f) (events f) (game T))
    as (_ & Hp & Hs & _).
  unfold events_traced.
  destruct (restarted (events f) (game T)).
  - constructor; simpl; try constructor; try congruence;
      try (intros; contradiction).
  - constructor; simpl; try assumption; congruence.
Qed.

Lemma Inv_logic_idle (now e : Z) (T : Traced) :
  game_active (game T) = false -> Inv T -> Inv (logic_traced now e T).
Proof.
  intros Ha [I1 I2 I3 I4 I5 I6 I7 I8 I9 I10 I11].
  assert (Eb : born now e T = []) by (unfold born; now rewrite Ha).
  assert (Es : scoring now e T = []) by (unfold scoring; now rewrite Ha).
  unfold logic_traced. rewrite Ha, Eb, Es, !app_nil_r, (game_logic_idle _ _ _ Ha).
  constructor; simpl; try assumption.
  revert I3. apply Forall_impl. intros a L. lia.
Qed.

Lemma Inv_logic_active (now e : Z) (T : Traced) :
  game_active (game T) = true -> Inv T -> Inv (logic_traced now e T).
Proof.
  intros Ha [I1 I2 I3 I4 I5 I6 I7 I8 I9 I10 I11].
  rewrite Forall_forall in I3.
  (* the state the game logic leaves *)
  pose proof (game_logic_active now e (game T) Ha) as EL. cbv zeta in EL.
  set (g' := game_logic now e (game T)) in *.
  assert (Ey : bird_y g' = fst (fall (bird_y (game T)) (bird_velocity (game T))))
    by (rewrite EL; reflexivity).
  rewrite <- Ey in EL.
  set (y := bird_y g') in *.
  assert (Ep : pipes g'
               = map (score_one (bird_rect_at y))
                     (move_pipes (spawn_stage now e (game T))))
    by (rewrite EL; reflexivity).
  assert (Esc : score g'
                = score (game T)
                  + Z.of_nat (length (filter (scores_now (bird_rect_at y))
                                (move_pipes (spawn_stage now e (game T))))))
    by (rewrite EL; reflexivity).
  clear EL Ey.
  (* the pairs before they move *)
  assert (Eb : born now e T
               = if spawn_due now (game T)
                 then [(frame_no T, new_pipe e)] else [])
    by (unfold born; now rewrite Ha).
  set (nb := born now e T) in *.
  set (before := tagged T ++ nb).
  assert (Hbefore : forall t p, In (t, p) before ->
            In (t, p) (tagged T) \/
            (In (t, p) nb /\ t = frame_no T /\ p = new_pipe e)).
  { intros t p Hin. apply in_app_or in Hin. destruct Hin as [Hin|Hin].
    - now left.
    - right. split; [exact Hin|]. rewrite Eb in Hin.
      destruct (spawn_due now (game T)); [|contradiction].
      destruct Hin as [E|[]]. inversion E. now split. }
  assert (Hold : forall t p, In (t, p) (tagged T) -> t < frame_no T).
  { intros t p Hin. destruct (I5 t p Hin) as (p0 & H0 & _).
    exact (I3 _ H0). }
  assert (Hsc : forall t, In t (scored T) -> t < frame_no T).
  { intros t Hin. apply I10 in Hin. apply in_tags in Hin.
    destruct Hin as (p0 & H0). exact (I3 _ H0). }
  assert (Eerase : map snd before = spawn_stage now e (game T)).
  { unfold before. rewrite map_app, I1, Eb. unfold spawn_stage, create_pipe.
    destruct (spawn_due now (game T)); simpl; [reflexivity|].
    apply app_nil_r. }
  assert (Sbefore : StronglySorted later_and_right before).
  { unfold before. rewrite Eb.
    destruct (spawn_due now (game T)); [|now rewrite app_nil_r].
    apply StronglySorted_snoc; [exact I2|].
    apply Forall_forall. intros [t p] Hin. split; simpl.
    - exact (Hold t p Hin).
    - destruct (I7 t p Hin) as (Hx & _).
      unfold SCREEN_WIDTH, PIPE_SPEED in *. lia. }
  (* the pairs as update_score meets them *)
  assert (Em : met now e T = move_tagged before) by reflexivity.
  assert (Smet : StronglySorted later_and_right (met now e T)).
  { rewrite Em. unfold move_tagged. apply StronglySorted_filter.
    revert Sbefore. apply StronglySorted_map.
    intros [t1 p1] [t2 p2] [L1 L2]. split; simpl in *; lia. }
  assert (Escoring : scoring now e T
                     = scoring_tags (bird_rect_at y) (met now e T)).
  { unfold scoring. now rewrite Ha. }
  assert (Hscoring : forall t p, In (t, p) before ->
            on_screen (shift_pipe p) = true ->
            (In t (scoring now e T) <->
             scores_now (bird_rect_at y) (shift_pipe p) = true)).
  { intros t p Hin Hon. rewrite Escoring, in_scoring_tags. split.
    - intros (q & Hq & Hs).
      assert (Hq' : In (t, shift_pipe p) (met now e T)).
      { rewrite Em. apply in_move_tagged. exists p. now repeat split. }
      now rewrite (tag_names_one_pair _ _ _ _ Smet Hq' Hq).
    - intro Hs. exists (shift_pipe p). split; [|exact Hs].
      rewrite Em. apply in_move_tagged. exists p. now repeat split. }
  assert (Hnew : forall t q,
            In (t, q) (score_tagged (bird_rect_at y) (met now e T)) <->
            exists p, In (t, p) before /\ on_screen (shift_pipe p) = true /\
                      q = score_one (bird_rect_at y) (shift_pipe p)).
  { intros t q. rewrite in_score_tagged. split.
    - intros (p' & Hin & ->). rewrite Em in Hin.
      apply in_move_tagged in Hin. destruct Hin as (p & Hin & -> & Hon).
      exists p. now repeat split.
    - intros (p & Hin & Hon & ->). exists (shift_pipe p). split; [|reflexivity].
      rewrite Em. apply in_move_tagged. exists p. now repeat split. }
  unfold logic_traced. rewrite Ha. fold g' y nb.
  constructor; simpl.
  - (* inv_erase *)
    rewrite score_tagged_erase, Em, move_tagged_erase, Eerase. now rewrite Ep.
  - (* inv_order *)
    unfold score_tagged. revert Smet. apply StronglySorted_map.
    intros [t1 p1] [t2 p2] [L1 L2]. split; simpl in *; [exact L1|].
    destruct (score_one_shape y p1) as (-> & _).
    destruct (score_one_shape y p2) as (-> & _). exact L2.
  - (* inv_tags *)
    apply Forall_forall. intros [t p] Hin. simpl.
    apply in_app_or in Hin. destruct Hin as [Hin|Hin].
    + specialize (I3 _ Hin). simpl in I3. lia.
    + destruct (Hbefore t p (in_or_app _ _ _ (or_intror Hin)))
        as [Hin'|(_ & -> & _)]; [|lia].
      specialize (Hold _ _ Hin'). lia.
  - (* inv_spawn_order *)
    rewrite map_app. fold nb in Eb. rewrite Eb.
    destruct (spawn_due now (game T)); simpl; [|now rewrite app_nil_r].
    apply StronglySorted_snoc; [exact I4|].
    apply Forall_forall. intros t Hin. apply in_tags in Hin.
    destruct Hin as (p0 & H0). exact (I3 _ H0).
  - (* inv_origin *)
    intros t q Hin. apply Hnew in Hin. destruct Hin as (p & Hin & Hon & ->).
    destruct (score_one_shape y (shift_pipe p)) as (_ & -> & -> & _). simpl.
    destruct (Hbefore t p Hin) as [Hin'|(Hin' & -> & ->)].
    + destruct (I5 t p Hin') as (p0 & H0 & Ht & Hb).
      exists p0. split; [apply in_or_app; now left | now split].
    + exists (new_pipe e). split; [apply in_or_app; now right | now split].
  - (* inv_spawned *)
    intros t p0 Hin. apply in_app_or in Hin. destruct Hin as [Hin|Hin].
    + exact (I6 t p0 Hin).
    + destruct (Hbefore t p0 (in_or_app _ _ _ (or_intror Hin)))
        as [Hin'|(_ & _ & ->)]; [|apply new_pipe_shape].
      fold nb in Eb. rewrite Eb in Hin.
      destruct (spawn_due now (game T)); [|contradiction].
      destruct Hin as [E|[]]. inversion E. apply new_pipe_shape.
  - (* inv_pipe *)
    intros t q Hin. apply Hnew in Hin. destruct Hin as (p & Hin & Hon & ->).
    destruct (score_one_shape y (shift_pipe p)) as (-> & _ & _ & ->).
    pose proof (Hscoring t p Hin Hon) as Hs.
    unfold scores_now, rect_left, bird_rect_at in Hs. simpl in Hs.
    unfold on_screen in Hon. simpl in *.
    rewrite Z.gtb_ltb in Hon. apply Z.ltb_lt in Hon.
    rewrite in_app_iff, Hs.
    destruct (Hbefore t p Hin) as [Hin'|(_ & -> & ->)].
    + destruct (I7 t p Hin') as (Hx & Hpos & Hpass & Hscd).
      rewrite <- Hscd.
      unfold SCREEN_WIDTH, PIPE_SPEED, PIPE_WIDTH, bird_x in *.
      destruct (Z.ltb_spec (pipe_x p - 3 + 80) 100) as [E|E];
        destruct (passed p); simpl;
        intuition (discriminate || lia).
    + simpl. unfold SCREEN_WIDTH, PIPE_SPEED, PIPE_WIDTH, bird_x. simpl.
      repeat split; try lia; try discriminate.
      intros [Hin'|Hin']; [|discriminate].
      specialize (Hsc _ Hin'). lia.
  - (* inv_nodup *)
    apply NoDup_app; repeat split.
    + exact I8.
    + rewrite Escoring. apply scoring_tags_nodup.
      apply (sorted_tags_nodup _ Smet).
    + intros t Hin1 Hin2. rewrite Escoring in Hin2.
      apply in_scoring_tags in Hin2. destruct Hin2 as (p' & Hin2 & Hs).
      rewrite Em in Hin2. apply in_move_tagged in Hin2.
      destruct Hin2 as (p & Hin2 & -> & Hon).
      unfold scores_now in Hs. simpl in Hs.
      apply andb_true_iff in Hs. destruct Hs as [_ Hs].
      destruct (Hbefore t p Hin2) as [Hin'|(_ & -> & _)].
      * destruct (I7 t p Hin') as (_ & _ & _ & Hscd).
        apply Hscd in Hin1. rewrite Hin1 in Hs. discriminate.
      * specialize (Hsc _ Hin1). lia.
  - (* inv_score *)
    rewrite Esc, I9, length_app, Escoring, scoring_tags_length, Em,
      move_tagged_erase, Eerase. lia.
  - (* inv_scored *)
    intros t Hin. rewrite map_app, in_app_iff.
    apply in_app_or in Hin. destruct Hin as [Hin|Hin]; [left; now apply I10|].
    rewrite Escoring in Hin. apply in_scoring_tags in Hin.
    destruct Hin as (p' & Hin & _). rewrite Em in Hin.
    apply in_move_tagged in Hin. destruct Hin as (p & Hin & _).
    destruct (Hbefore t p Hin) as [Hin'|(Hin' & _)].
    + left. destruct (I5 t p Hin') as (p0 & H0 & _).
      apply in_tags. now exists p0.
    + right. apply in_tags. now exists p.
  - (* inv_gone *)
    intros t Hin. rewrite map_app in Hin. apply in_app_or in Hin.
    rewrite in_app_iff.
    assert (Hstay : forall p, In (t, p) before ->
              on_screen (shift_pipe p) = true ->
              In t (map fst (score_tagged (bird_rect_at y) (met now e T)))).
    { intros p Hp Hon. apply in_tags.
      exists (score_one (bird_rect_at y) (shift_pipe p)).
      apply Hnew. exists p. now repeat split. }
    destruct Hin as [Hin|Hin].
    + destruct (I11 t Hin) as [Ht|Ht]; [|right; now left].
      apply in_tags in Ht. destruct Ht as (p & Hp).
      destruct (on_screen (shift_pipe p)) eqn:Hon.
      * left. apply (Hstay p); [|exact Hon].
        apply in_or_app. now left.
      * right. left. destruct (I7 t p Hp) as (_ & _ & Hpass & Hscd).
        apply Hscd. apply Hpass.
        unfold on_screen in Hon. simpl in Hon.
        rewrite Z.gtb_ltb in Hon. apply Z.ltb_ge in Hon.
        unfold PIPE_SPEED, PIPE_WIDTH, bird_x in *. lia.
    + apply in_tags in Hin. destruct Hin as (p & Hp).
      destruct (Hbefore t p (in_or_app _ _ _ (or_intror Hp)))
        as [Hin'|(_ & -> & ->)].
      * left. apply in_tags.
        destruct (on_screen (shift_pipe p)) eqn:Hon.
        -- apply in_tags. apply (Hstay p); [|exact Hon].
           apply in_or_app. now left.
        -- exfalso. fold nb in Eb. rewrite Eb in Hp.
           destruct (spawn_due now (game T)); [|contradiction].
           destruct Hp as [E|[]]. inversion E. subst.
           discriminate Hon.
      * left. apply (Hstay (new_pipe e)); [|reflexivity].
        apply in_or_app. now right.
Qed.

Lemma Inv_frame (f : Frame) (T : Traced) : Inv T -> Inv (frame_traced f T).
Proof.
  intro I. unfold frame_traced. apply Inv_events with (f := f) in I.
  destruct (game_active (game (events_traced f T))) eqn:Ha.
  - now apply Inv_logic_active.
  - now apply Inv_logic_idle.
Qed.

Lemma Inv_main_loop (frames : list Frame) (T : Traced) :
  Inv T -> Inv (main_loop_traced frames T).
Proof.
  revert T. induction frames as [|f frames IH]; intros T I; simpl.
  - exact I.
  - destruct (running (game T)); [|exact I].
    apply IH. now apply Inv_frame.
Qed.

Lemma Inv_reachable (T : Traced) : reachable_traced T -> Inv T.
Proof.
  intros (t0 & frames & ->). apply Inv_main_loop. apply Inv_initial.
Qed.

(** The instrumented loop runs the program. *)
Lemma frame_traced_game (f : Frame) (T : Traced) :
  game (frame_traced f T) = frame f (game T).
Proof. reflexivity. Qed.

Lemma main_loop_traced_game (frames : list Frame) (T : Traced) :
  game (main_loop_traced frames T) = main_loop frames (game T).
Proof.
  revert T. induction frames as [|f frames IH]; intro T; simpl.
  - reflexivity.
  - destruct (running (game T)); [|reflexivity].
    now rewrite IH, frame_traced_game.
Qed.

Lemma reachable_is_traced (g : Game) :
  reachable g <-> exists T, reachable_traced T /\ game T = g.
Proof.
  split.
  - intros (t0 & frames & ->).
    exists (main_loop_traced frames (initial_traced t0)). split.
    + now exists t0, frames.
    + apply main_loop_traced_game.
  - intros (T & (t0 & frames & ->) & <-). exists t0, frames.
    apply main_loop_traced_game.
Qed.


(** ** Scoring, pair by pair *)

Lemma count_occ_nodup (l : list Z) (t : Z) :
  NoDup l ->
  count_occ Z.eq_dec l t = if in_dec Z.eq_dec t l then 1%nat else 0%nat.
Proof.
  intro H. destruct (in_dec Z.eq_dec t l) as [Hin|Hin].
  - exact (proj1 (NoDup_count_occ' Z.eq_dec l) H t Hin).
  - now apply count_occ_not_In.
Qed.

Lemma tagged_before_now (T : Traced) (t : Z) (p : Pipe) :
  Inv T -> In (t, p) (tagged T) -> t < frame_no T.
Proof.
  intros I Hin. destruct (inv_origin T I t p Hin) as (p0 & H0 & _).
  pose proof (inv_tags T I) as H. rewrite Forall_forall in H.
  exact (H _ H0).
Qed.

(** The score grows by one for each tag of [scored_in_frame]. *)
Lemma frame_score (f : Frame) (T : Traced) :
  Inv T ->
  score (frame f (game T))
  = score (handle_events (ticks_at_events f) (events f) (game T))
    + Z.of_nat (length (scored_in_frame f T)).
Proof.
  intro I.
  pose proof (inv_score _ (Inv_events f T I)) as E1.
  pose proof (inv_score _ (Inv_frame f T I)) as E2.
  change (game (frame_traced f T)) with (frame f (game T)) in E2.
  change (game (events_traced f T))
    with (handle_events (ticks_at_events f) (events f) (game T)) in E1.
  rewrite E2, E1.
  change (scored (frame_traced f T))
    with (scored (events_traced f T) ++ scored_in_frame f T).
  rewrite length_app. lia.
Qed.

(** A point is given for a pair only when [update_score] meets it with
    its right edge left of the bird and its flag down; the flag is then
    up in the state the frame leaves. *)
Lemma scored_in_frame_spec (f : Frame) (T : Traced) (t : Z) :
  In t (scored_in_frame f T) ->
  exists p, In (t, p) (met_in_frame f T) /\
            pipe_x p + PIPE_WIDTH < bird_x /\ passed p = false /\
            In (t, mark_passed p) (tagged (frame_traced f T)).
Proof.
  unfold scored_in_frame, met_in_frame, frame_traced, scoring.
  set (E := events_traced f T).
  destruct (game_active (game E)) eqn:Ha; [|contradiction].
  intro Hin. apply in_scoring_tags in Hin. destruct Hin as (p & Hin & Hs).
  exists p. split; [exact Hin|].
  pose proof Hs as Hs'. unfold scores_now in Hs'.
  change (rect_left (bird_rect_at
            (bird_y (game_logic (ticks_at_logic f) (entropy f) (game E)))))
    with bird_x in Hs'.
  apply andb_true_iff in Hs'. destruct Hs' as [Hx Hp].
  apply Z.ltb_lt in Hx. apply negb_true_iff in Hp.
  repeat split; try assumption.
  unfold logic_traced. cbn [tagged]. rewrite Ha.
  apply in_score_tagged. exists p. split; [exact Hin|].
  unfold score_one. now rewrite Hs.
Qed.

(** The flag of a pair that is still there after a frame is not cleared. *)
Lemma passed_is_kept (f : Frame) (T : Traced) (t : Z) (p p' : Pipe) :
  Inv T ->
  In (t, p) (tagged T) -> In (t, p') (tagged (frame_traced f T)) ->
  passed p = true -> passed p' = true.
Proof.
  intros I Hin Hin' Hp.
  pose proof (tagged_before_now T t p I Hin) as Ht.
  unfold frame_traced in Hin'.
  set (E := events_traced f T) in *.
  assert (HE : frame_no E = frame_no T /\
               (tagged E = [] \/ tagged E = tagged T)).
  { unfold E, events_traced. cbn [frame_no tagged].
    destruct (restarted (events f) (game T)); auto. }
  destruct HE as [En Et].
  destruct (game_active (game E)) eqn:Ha.
  - apply in_tagged_after_logic in Hin'; [|exact Ha].
    destruct Hin' as (q & Hq & _ & ->).
    destruct (score_one_shape
                (bird_y (game_logic (ticks_at_logic f) (entropy f) (game E)))
                (shift_pipe q)) as (_ & _ & _ & ->).
    apply in_app_or in Hq. destruct Hq as [Hq|Hq].
    + destruct Et as [Et|Et]; rewrite Et in Hq; [contradiction|].
      rewrite (tag_names_one_pair _ _ _ _ (inv_order T I) Hq Hin).
      cbn [passed shift_pipe]. now rewrite Hp.
    + apply in_born in Hq. lia.
  - unfold logic_traced in Hin'. cbn [tagged] in Hin'. rewrite Ha in Hin'.
    destruct Et as [Et|Et]; rewrite Et in Hin'; [contradiction|].
    now rewrite (tag_names_one_pair _ _ _ _ (inv_order T I) Hin' Hin).
Qed.

(** C3, as the code has it.  The score is the number of increments since
    the (re)start, and each increment belongs to one pair.  No pair gets
    more than one: a pair in the collection has got its point exactly
    when its right edge is strictly left of the bird's left edge, which
    is also when its flag is up, and a pair that has left the collection
    has got exactly one.  In a frame, a point is given only for a pair
    that [update_score] meets with its right edge strictly left of the
    bird's left edge and its flag down; the flag is up afterwards, and a
    flag that is up stays up as long as the pair is in the collection. *)
Theorem each_pair_scored_at_most_once (T : Traced) :
  reachable_traced T ->
  score (game T) = Z.of_nat (length (scored T)) /\
  (forall t, (count_occ Z.eq_dec (scored T) t <= 1)%nat) /\
  (forall t p, In (t, p) (tagged T) ->
     count_occ Z.eq_dec (scored T) t
     = (if pipe_x p + PIPE_WIDTH <? bird_x then 1%nat else 0%nat) /\
     passed p = (pipe_x p + PIPE_WIDTH <? bird_x)) /\
  (forall t p0, In (t, p0) (spawned T) -> ~ In t (map fst (tagged T)) ->
     count_occ Z.eq_dec (scored T) t = 1%nat) /\
  (forall f : Frame,
     score (frame f (game T))
     = score (handle_events (ticks_at_events f) (events f) (game T))
       + Z.of_nat (length (scored_in_frame f T)) /\
     (forall t, In t (scored_in_frame f T) ->
        exists p, In (t, p) (met_in_frame f T) /\
                  pipe_x p + PIPE_WIDTH < bird_x /\ passed p = false /\
                  In (t, mark_passed p) (tagged (frame_traced f T))) /\
     (forall t p p',
        In (t, p) (tagged T) -> In (t, p') (tagged (frame_traced f T)) ->
        passed p = true -> passed p' = true)).
Proof.
  intro HR. pose proof (Inv_reachable T HR) as I.
  pose proof (inv_nodup T I) as Hnd.
  split; [exact (inv_score T I)|].
  split; [intro t; now apply NoDup_count_occ|].
  split; [|split].
  - intros t p Hin.
    destruct (inv_pipe T I t p Hin) as (_ & _ & Hpass & Hscd).
    rewrite (count_occ_nodup _ t Hnd).
    destruct (Z.ltb_spec (pipe_x p + PIPE_WIDTH) bird_x) as [L|L];
      destruct (in_dec Z.eq_dec t (scored T)) as [Hs|Hs];
      destruct (passed p); intuition (discriminate || lia).
  - intros t p0 Hin Hgone.
    rewrite (count_occ_nodup _ t Hnd).
    destruct (in_dec Z.eq_dec t (scored T)) as [Hs|Hs]; [reflexivity|].
    exfalso. destruct (inv_gone T I t) as [H|H]; [|contradiction|contradiction].
    apply in_tags. now exists p0.
  - intro f. split; [now apply frame_score|].
    split; [intro t; apply scored_in_frame_spec|].
    intros t p p'. now apply passed_is_kept.
Qed.

Lemma each_pair_scored_witness :
  reachable_traced (main_loop_traced two_pipes_run (initial_traced 0)) /\
  score (game (main_loop_traced two_pipes_run (initial_traced 0)))
  = Z.of_nat (length (scored (main_loop_traced two_pipes_run (initial_traced 0)))).
Proof.
  assert (R : reachable_traced (main_loop_traced two_pipes_run (initial_traced 0)))
    by (exists 0, two_pipes_run; reflexivity).
  split; [exact R|].
  apply (each_pair_scored_at_most_once _ R).
Defined.

(** C3 as worded fails: a pair that is still right of the bird when the
    run ends never gets its point. *)
Lemma some_pair_never_scored :
  let T := main_loop_traced drop_run_with_pipe (initial_traced 0) in
  reachable_traced T /\ game_active (game T) = false /\
  ~ every_pair_scored_exactly_once T.
Proof.
  split; [exists 0, drop_run_with_pipe; reflexivity|].
  split; [vm_compute; reflexivity|].
  intro H. specialize (H 1 (new_pipe 0)).
  assert (Hin : In (1, new_pipe 0)
                   (spawned (main_loop_traced drop_run_with_pipe
                               (initial_traced 0))))
    by (vm_compute; left; reflexivity).
  specialize (H Hin). vm_compute in H. discriminate H.
Qed.


(** ** The geometry of the pairs *)

Lemma ascending_tags_name_one (l : list (Z * Pipe)) (t : Z) (p q : Pipe) :
  StronglySorted Z.lt (map fst l) -> In (t, p) l -> In (t, q) l -> p = q.
Proof.
  induction l as [|[t' p'] l IH]; simpl; intros Hs Hp Hq; [contradiction|].
  apply StronglySorted_inv in Hs. destruct Hs as [Hs Hall].
  rewrite Forall_forall in Hall.
  assert (Hfresh : forall r, In (t, r) l -> t' < t).
  { intros r Hr. apply Hall. apply in_tags. now exists r. }
  destruct Hp as [Hp|Hp], Hq as [Hq|Hq].
  - congruence.
  - inversion Hp; subst. specialize (Hfresh _ Hq). lia.
  - inversion Hq; subst. specialize (Hfresh _ Hp). lia.
  - now apply IH.
Qed.

(** C4.  Whatever the random generator returns, a spawned pair has
    top height + 200 + bottom height + 100 = 800 with both heights at
    least 50.  Every pair in the collection was spawned under its tag
    with the heights it has now, so the heights never change, and every
    entry of [pipes] has this geometry. *)
Theorem pipe_heights_fixed_at_spawn (T : Traced) :
  reachable_traced T ->
  (forall e,
     top_height (new_pipe e) + 200 + bottom_height (new_pipe e) + 100 = 800 /\
     50 <= top_height (new_pipe e) /\ 50 <= bottom_height (new_pipe e)) /\
  (forall t p0, In (t, p0) (spawned T) ->
     top_height p0 + 200 + bottom_height p0 + 100 = 800 /\
     50 <= top_height p0 /\ 50 <= bottom_height p0) /\
  (forall t p0 p0', In (t, p0) (spawned T) -> In (t, p0') (spawned T) ->
     p0 = p0') /\
  (forall t p, In (t, p) (tagged T) ->
     exists p0, In (t, p0) (spawned T) /\
                top_height p = top_height p0 /\
                bottom_height p = bottom_height p0) /\
  (forall pipe, In pipe (pipes (game T)) ->
     top_height pipe + 200 + bottom_height pipe + 100 = 800 /\
     50 <= top_height pipe /\ 50 <= bottom_height pipe).
Proof.
  intro HR. pose proof (Inv_reachable T HR) as I.
  split; [|split; [|split; [|split]]].
  - intro e. exact (proj1 (new_pipe_shape e)).
  - intros t p0 Hin. exact (proj1 (inv_spawned T I t p0 Hin)).
  - intros t p0 p0'. apply ascending_tags_name_one. exact (inv_spawn_order T I).
  - exact (inv_origin T I).
  - intros pipe Hin. rewrite <- (inv_erase T I) in Hin.
    apply in_map_iff in Hin. destruct Hin as ([t p] & E & Hin).
    simpl in E. subst p.
    destruct (inv_origin T I t pipe Hin) as (p0 & H0 & -> & ->).
    exact (proj1 (inv_spawned T I t p0 H0)).
Qed.

Lemma pipe_heights_witness :
  reachable_traced (main_loop_traced two_pipes_run (initial_traced 0)) /\
  (top_height (mkPipe 597 200 300 false) + 200
   + bottom_height (mkPipe 597 200 300 false) + 100 = 800 /\
   50 <= top_height (mkPipe 597 200 300 false) /\
   50 <= bottom_height (mkPipe 597 200 300 false)).
Proof.
  assert (R : reachable_traced (main_loop_traced two_pipes_run (initial_traced 0)))
    by (exists 0, two_pipes_run; reflexivity).
  split; [exact R|].
  apply (pipe_heights_fixed_at_spawn _ R).
  vm_compute. right. left. reflexivity.
Defined.

(** ** The order of the collection *)

(** C7, as the code has it.  [pipes] is the tagged list without the tags;
    along the list the spawn frames ascend (each pair was spawned after
    the ones before it) and so do the horizontal positions: of two pairs
    in the collection the one spawned earlier has the strictly smaller x. *)
Theorem pipes_ordered_by_spawn_and_ascending_x (T : Traced) :
  reachable_traced T ->
  map snd (tagged T) = pipes (game T) /\
  StronglySorted Z.lt (map fst (tagged T)) /\
  StronglySorted Z.lt (map pipe_x (pipes (game T))) /\
  (forall t1 p1 t2 p2,
     In (t1, p1) (tagged T) -> In (t2, p2) (tagged T) ->
     (t1 < t2 <-> pipe_x p1 < pipe_x p2)).
Proof.
  intro HR. pose proof (Inv_reachable T HR) as I.
  pose proof (inv_order T I) as Hs.
  split; [exact (inv_erase T I)|].
  split; [|split].
  - revert Hs. apply StronglySorted_map. intros a b [L _]. exact L.
  - rewrite <- (inv_erase T I), map_map.
    revert Hs. apply StronglySorted_map. intros a b [_ L]. exact L.
  - intros t1 p1 t2 p2 H1 H2.
    destruct (StronglySorted_In _ _ _ _ Hs H1 H2) as [E|[[L1 L2]|[L1 L2]]];
      simpl in *.
    + inversion E; subst. lia.
    + tauto.
    + lia.
Qed.

Lemma pipes_ordered_witness :
  reachable_traced (main_loop_traced two_pipes_run (initial_traced 0)) /\
  StronglySorted Z.lt
    (map pipe_x (pipes (game (main_loop_traced two_pipes_run (initial_traced 0))))).
Proof.
  assert (R : reachable_traced (main_loop_traced two_pipes_run (initial_traced 0)))
    by (exists 0, two_pipes_run; reflexivity).
  split; [exact R|].
  apply (pipes_ordered_by_spawn_and_ascending_x _ R).
Defined.

(** C7 as worded fails: after [two_pipes_run] the pair spawned in frame 1
    is at x = 594 and the pair spawned in frame 2 at x = 597. *)
Lemma earlier_pipe_is_further_left :
  let T := main_loop_traced two_pipes_run (initial_traced 0) in
  reachable_traced T /\
  tagged T = [(1, mkPipe 594 250 250 false); (2, mkPipe 597 200 300 false)] /\
  ~ earlier_spawned_has_larger_x T.
Proof.
  split; [exists 0, two_pipes_run; reflexivity|].
  split; [vm_compute; reflexivity|].
  intro H.
  specialize (H 1 (mkPipe 594 250 250 false) 2 (mkPipe 597 200 300 false)).
  assert (L : pipe_x (mkPipe 594 250 250 false)
              > pipe_x (mkPipe 597 200 300 false)).
  { apply H.
    - vm_compute. left. reflexivity.
    - vm_compute. right. left. reflexivity.
    - lia. }
  simpl in L. lia.
Qed.

(** The same order, stated on the program state alone. *)
Lemma pipes_ascending_x (g : Game) :
  reachable g -> StronglySorted Z.lt (map pipe_x (pipes g)).
Proof.
  intro HR. apply reachable_is_traced in HR. destruct HR as (T & HT & <-).
  pose proof (Inv_reachable T HT) as I.
  rewrite <- (inv_erase T I), map_map.
  generalize (inv_order T I). apply StronglySorted_map.
  intros a b [_ L]. exact L.
Qed.


(** ** Position and velocity are small multiples of one half *)

Lemma halves_add (Y V : Z) :
  ((Y # 2) + ((V # 2) + gravity) == (Y + V + 1) # 2)%Q /\
  ((V # 2) + gravity == (V + 1) # 2)%Q.
Proof. unfold gravity, Qeq, Qplus. simpl. lia. Qed.

Lemma Qtruncate_half (Y : Z) (q : Q) :
  0 <= Y -> (q == Y # 2)%Q -> Qtruncate q = Y / 2.
Proof.
  intros HY E.
  assert (H0 : (0 <= q)%Q) by (rewrite E; unfold Qle; simpl; lia).
  rewrite (Qtruncate_floor q H0), E. reflexivity.
Qed.

Lemma half_integral_event (t : Z) (ev : Event) (g : Game) :
  half_integral g -> half_integral (handle_event t ev g).
Proof.
  intros (Y & V & Hy & Hv & HY & HV & Hact).
  assert (Same : half_integral g) by (exists Y, V; tauto).
  destruct ev as [|[|]|]; try exact Same.
  unfold handle_event. destruct (game_active g) eqn:Ha; cbn [negb].
  - exists Y, (-18). destruct (Hact eq_refl) as [L W].
      unfold energy_bound in *. cbn [bird_y bird_velocity game_active].
      split; [exact Hy|]. split; [reflexivity|]. repeat split; lia.
  - exists 800, 0. unfold energy_bound. cbn [bird_y bird_velocity game_active].
      split; [reflexivity|]. split; [reflexivity|]. repeat split; lia.
Qed.

Lemma half_integral_events (t : Z) (evs : list Event) (g : Game) :
  half_integral g -> half_integral (handle_events t evs g).
Proof.
  revert g. induction evs as [|ev evs IH]; intros g H; [exact H|].
  rewrite handle_events_cons. apply IH. now apply half_integral_event.
Qed.

Lemma half_integral_logic (now e : Z) (g : Game) :
  half_integral g -> half_integral (game_logic now e g).
Proof.
  intro H. destruct (game_active g) eqn:Ha;
    [|now rewrite (game_logic_idle _ _ _ Ha)].
  destruct H as (Y & V & Hy & Hv & HY & HV & Hact).
  destruct (Hact Ha) as [L W]. unfold energy_bound in W.
  rewrite (game_logic_active now e g Ha). cbv zeta.
  destruct (halves_add Y V) as [Ey Ev].
  destruct (fall_cases (bird_y g) (bird_velocity g)) as [[Hneg E]|[Hpos E]];
    rewrite E; cbn [fst snd].
  - exists 0, 0. unfold half_integral, energy_bound. cbn [bird_y bird_velocity game_active].
    repeat split; try reflexivity; lia.
  - rewrite Hy, Hv, Ey in Hpos.
    assert (HY1 : 0 <= Y + V + 1) by (unfold Qle in Hpos; simpl in Hpos; lia).
    assert (HVb : -55 <= V <= 54) by nia.
    exists (Y + V + 1), (V + 1). cbn [bird_y bird_velocity game_active].
    split; [now rewrite Hy, Hv|]. split; [now rewrite Hv|].
    split; [lia|]. split; [lia|].
    intro Hstill. apply negb_true_iff in Hstill.
    unfold check_collision in Hstill.
    destruct (rect_bottom _ >=? ground_y) eqn:Hb; [discriminate|].
    rewrite Z.geb_leb in Hb. apply Z.leb_gt in Hb.
    unfold rect_bottom, bird_rect_at in Hb. cbn [rect_y rect_h] in Hb.
    rewrite (Qtruncate_half (Y + V + 1)) in Hb;
      [|exact HY1|now rewrite Hy, Hv].
    unfold bird_height, ground_y, SCREEN_HEIGHT, GROUND_HEIGHT in Hb.
    split; [|unfold energy_bound; nia].
    pose proof (Z.div_mod (Y + V + 1) 2 ltac:(lia)).
    pose proof (Z.mod_pos_bound (Y + V + 1) 2 ltac:(lia)). lia.
Qed.

Lemma half_integral_main_loop (frames : list Frame) (g : Game) :
  half_integral g -> half_integral (main_loop frames g).
Proof.
  revert g. induction frames as [|f frames IH]; intros g H; simpl; [exact H|].
  destruct (running g); [|exact H].
  apply IH. unfold frame. apply half_integral_logic.
  now apply half_integral_events.
Qed.

(** In every state the loop reaches, position and velocity are halves of
    integers, the position within 0..700 and the velocity within -28..28:
    values on which binary floating point is exact. *)
Lemma half_integral_values (g : Game) : reachable g -> half_integral g.
Proof.
  intros (t0 & frames & ->). apply half_integral_main_loop.
  exists 800, 0. unfold energy_bound. simpl.
  repeat split; try reflexivity; try lia; discriminate.
Qed.

(** * Further properties of the code *)

(** ** Collision geometry *)

Lemma floor_lower_iff (z : Z) (q : Q) :
  (0 <= q)%Q -> (z <= Qtruncate q <-> (inject_Z z <= q)%Q).
Proof.
  intro H0. rewrite (Qtruncate_floor q H0). split; intro H.
  - apply Qle_trans with (inject_Z (Qfloor q)); [|apply Qfloor_le].
    rewrite <- Zle_Qle. exact H.
  - rewrite <- (Qfloor_Z z). now apply Qfloor_resp_le.
Qed.

(** X1.  For a bird position that is not negative, [check_collision]
    reports a collision exactly when the position is at least 670 (the
    ground boundary less the bird's height, whatever the fraction) or
    the loop over the pipes finds a hit. *)
Theorem ground_contact_from_670 (y : Q) (ps : list Pipe) :
  (0 <= y)%Q ->
  (check_collision (bird_rect_at y) ps = true <->
   (inject_Z 670 <= y)%Q \/ pipe_collision (bird_rect_at y) ps = true).
Proof.
  intro H0. unfold check_collision.
  assert (E : rect_bottom (bird_rect_at y) >= ground_y
              <-> (inject_Z 670 <= y)%Q).
  { rewrite <- (floor_lower_iff 670 y H0).
    unfold rect_bottom, bird_rect_at, ground_y, bird_height,
      SCREEN_HEIGHT, GROUND_HEIGHT.
    cbn [rect_y rect_h]. lia. }
  destruct (rect_bottom (bird_rect_at y) >=? ground_y) eqn:B.
  - apply Z.geb_le in B. split; [|reflexivity].
    intros _. left. apply E. lia.
  - rewrite Z.geb_leb in B. apply Z.leb_gt in B. split; [now right|].
    intros [H|H]; [|exact H]. apply E in H. lia.
Qed.

Lemma ground_contact_witness :
  (0 <= 1341 # 2)%Q /\ check_collision (bird_rect_at (1341 # 2)) [] = true.
Proof.
  split; [discriminate|].
  apply (ground_contact_from_670 (1341 # 2) []); [discriminate|].
  left. discriminate.
Defined.

(** X2.  When the bird's box is on the screen and above the ground (the
    only case in which [check_collision] looks at the pipes), it hits a
    pair of sound geometry exactly when it overlaps the pair
    horizontally and is not wholly inside the gap: its top above the end
    of the top pipe or its bottom below the start of the bottom pipe.
    Touching an edge is no hit. *)
Theorem pipe_hit_iff_outside_gap (y : Q) (pipe : Pipe) :
  heights_ok pipe ->
  0 <= Qtruncate y -> Qtruncate y + bird_height < ground_y ->
  (colliderect (bird_rect_at y) (top_pipe_rect pipe) = true \/
   colliderect (bird_rect_at y) (bottom_pipe_rect pipe) = true) <->
  (pipe_x pipe < bird_x + bird_width /\ bird_x < pipe_x pipe + PIPE_WIDTH) /\
  (Qtruncate y < top_height pipe \/
   top_height pipe + PIPE_GAP < Qtruncate y + bird_height).
Proof.
  intros (Hsum & Htop & Hbot) Hy0 Hy1.
  rewrite !colliderect_overlap;
    unfold bird_rect_at, top_pipe_rect, bottom_pipe_rect,
      rect_left, rect_right, rect_top, rect_bottom;
    cbn [rect_x rect_y rect_w rect_h];
    unfold bird_x, bird_width, bird_height, PIPE_WIDTH, PIPE_GAP, ground_y,
      SCREEN_HEIGHT, GROUND_HEIGHT in *; lia.
Qed.

Lemma pipe_hit_witness :
  heights_ok (mkPipe 90 250 250 false) /\
  (colliderect (bird_rect_at 200) (top_pipe_rect (mkPipe 90 250 250 false)) = true \/
   colliderect (bird_rect_at 200) (bottom_pipe_rect (mkPipe 90 250 250 false)) = true).
Proof.
  assert (H : heights_ok (mkPipe 90 250 250 false))
    by (unfold heights_ok; cbn; repeat split; discriminate).
  split; [exact H|].
  apply (pipe_hit_iff_outside_gap 200 (mkPipe 90 250 250 false) H).
  - discriminate.
  - reflexivity.
  - cbn. repeat split. left. reflexivity.
Defined.

Lemma no_overlap_no_hit (y : Q) (pipe_left ry rh : Z) :
  pipe_left + PIPE_WIDTH <= bird_x \/ bird_x + bird_width <= pipe_left ->
  colliderect (bird_rect_at y) (mkRect pipe_left ry PIPE_WIDTH rh) = false.
Proof.
  intro H. unfold colliderect, bird_rect_at.
  cbn [rect_x rect_y rect_w rect_h].
  destruct (_ || _ || _ || _); [reflexivity|].
  unfold bird_x, bird_width, PIPE_WIDTH in *.
  destruct H as [H|H].
  - replace (Z.min 100 (100 + 40) <? Z.max pipe_left (pipe_left + 80))
      with false by (symmetry; apply Z.ltb_ge; lia).
    reflexivity.
  - replace (Z.max 100 (100 + 40) >? Z.min pipe_left (pipe_left + 80))
      with false by (symmetry; rewrite Z.gtb_ltb; apply Z.ltb_ge; lia).
    now rewrite !andb_false_r.
Qed.

(** X3.  A pair whose right edge is strictly left of the bird (the
    condition under which [update_score] gives its point) cannot be hit,
    and neither can a pair whose left edge is at or right of the bird's
    right edge; this holds for any heights. *)
Theorem no_hit_without_horizontal_overlap (y : Q) (pipe : Pipe) :
  pipe_x pipe + PIPE_WIDTH <= bird_x \/ bird_x + bird_width <= pipe_x pipe ->
  colliderect (bird_rect_at y) (top_pipe_rect pipe) = false /\
  colliderect (bird_rect_at y) (bottom_pipe_rect pipe) = false /\
  pipe_collision (bird_rect_at y) [pipe] = false.
Proof.
  intro H.
  assert (Ct := no_overlap_no_hit y (pipe_x pipe) 0 (top_height pipe) H).
  assert (Cb := no_overlap_no_hit y (pipe_x pipe)
                  (SCREEN_HEIGHT - bottom_height pipe - GROUND_HEIGHT)
                  (bottom_height pipe) H).
  fold (top_pipe_rect pipe) in Ct. fold (bottom_pipe_rect pipe) in Cb.
  repeat split; try assumption.
  cbn [pipe_collision]. now rewrite Ct, Cb.
Qed.

Lemma no_hit_witness :
  pipe_x (mkPipe 18 250 250 true) + PIPE_WIDTH <= bird_x /\
  pipe_collision (bird_rect_at 0) [mkPipe 18 250 250 true] = false.
Proof.
  split; [discriminate|].
  apply (no_hit_without_horizontal_overlap 0 (mkPipe 18 250 250 true)).
  left. discriminate.
Defined.

(** ** [update_score] and [move_pipes] on their own *)

Lemma score_one_settled (r : Rect) (pipe : Pipe) :
  scores_now r (score_one r pipe) = false.
Proof.
  unfold score_one. destruct (scores_now r pipe) eqn:E; [|exact E].
  unfold scores_now. cbn [passed mark_passed]. apply andb_false_r.
Qed.

(** X4.  "Mark as passed so it's not scored again": a second call of
    [update_score] with the same bird box on the list the first call
    left gives no further point and changes no flag. *)
Theorem update_score_twice (r : Rect) (ps : list Pipe) (s s' : Z) :
  update_score r (snd (update_score r ps s)) s'
  = (s', snd (update_score r ps s)).
Proof.
  rewrite (surjective_pairing (update_score r (snd (update_score r ps s)) s')).
  rewrite update_score_count, !update_score_pipes. f_equal.
  - induction ps as [|p ps IH]; [cbn; lia|].
    cbn [map filter]. rewrite score_one_settled. exact IH.
  - induction ps as [|p ps IH]; [reflexivity|].
    cbn [map]. rewrite IH. f_equal.
    unfold score_one at 1. now rewrite score_one_settled.
Qed.

Lemma moved_times_one (n : nat) (pipe : Pipe) :
  0 < pipe_x pipe + PIPE_WIDTH ->
  moved_times n [pipe]
  = if pipe_x pipe - PIPE_SPEED * Z.of_nat n + PIPE_WIDTH >? 0
    then [mkPipe (pipe_x pipe - PIPE_SPEED * Z.of_nat n)
                 (top_height pipe) (bottom_height pipe) (passed pipe)]
    else [].
Proof.
  intro H0. induction n as [|n IH].
  - change (moved_times 0 [pipe]) with [pipe].
    destruct pipe as [x th bh ps]. cbn [pipe_x] in *.
    replace (x - PIPE_SPEED * Z.of_nat 0) with x by (cbn; lia).
    replace (x + PIPE_WIDTH >? 0) with true
      by (symmetry; rewrite Z.gtb_ltb; apply Z.ltb_lt; exact H0).
    reflexivity.
  - change (moved_times (S n) [pipe]) with (move_pipes (moved_times n [pipe])).
    rewrite IH.
    replace (pipe_x pipe - PIPE_SPEED * Z.of_nat (S n))
      with (pipe_x pipe - PIPE_SPEED * Z.of_nat n - PIPE_SPEED) by lia.
    destruct (pipe_x pipe - PIPE_SPEED * Z.of_nat n + PIPE_WIDTH >? 0) eqn:E.
    + unfold move_pipes. cbn [map filter shift_pipe pipe_x top_height
                                bottom_height passed].
      unfold on_screen at 1. cbn [pipe_x].
      destruct (_ >? 0); reflexivity.
    + rewrite Z.gtb_ltb in E. apply Z.ltb_ge in E.
      replace (_ >? 0) with false; [reflexivity|].
      symmetry. rewrite Z.gtb_ltb. apply Z.ltb_ge.
      unfold PIPE_SPEED in *. lia.
Qed.

(** X5.  A pair spawned at the right edge is in the collection after n
    ticks of [move_pipes] exactly for n up to 226, at x = 600 - 3n with
    its heights and flag untouched, and it meets the scoring condition
    of [update_score] from its 194th tick on. *)
Theorem pipe_lives_226_ticks (e : Z) (n : nat) :
  moved_times n [new_pipe e]
  = (if (n <=? 226)%nat
     then [mkPipe (600 - 3 * Z.of_nat n) (top_height (new_pipe e))
                  (bottom_height (new_pipe e)) false]
     else []) /\
  (forall y pipe, In pipe (moved_times n [new_pipe e]) ->
     (scores_now (bird_rect_at y) pipe = true <-> (194 <= n)%nat)).
Proof.
  assert (E : moved_times n [new_pipe e]
              = if (n <=? 226)%nat
                then [mkPipe (600 - 3 * Z.of_nat n) (top_height (new_pipe e))
                             (bottom_height (new_pipe e)) false]
                else []).
  { rewrite moved_times_one by (cbn; reflexivity).
    change (pipe_x (new_pipe e)) with 600.
    change (passed (new_pipe e)) with false.
    unfold PIPE_SPEED, PIPE_WIDTH.
    destruct (Nat.leb_spec n 226) as [L|L].
    - replace (_ >? 0) with true; [reflexivity|].
      symmetry. rewrite Z.gtb_ltb. apply Z.ltb_lt. lia.
    - replace (_ >? 0) with false; [reflexivity|].
      symmetry. rewrite Z.gtb_ltb. apply Z.ltb_ge. lia. }
  split; [exact E|].
  intros y pipe Hin. rewrite E in Hin.
  destruct (n <=? 226)%nat; [|contradiction].
  destruct Hin as [<-|[]].
  unfold scores_now. cbn [pipe_x passed negb].
  change (rect_left (bird_rect_at y)) with 100.
  unfold PIPE_WIDTH. rewrite andb_true_r, Z.ltb_lt. lia.
Qed.

(** ** Leaving the loop *)

Lemma handle_events_quit (t : Z) (evs : list Event) (g : Game) :
  In QUIT evs \/ running g = false ->
  running (handle_events t evs g) = false.
Proof.
  revert g. induction evs as [|ev evs IH]; intros g H.
  - destruct H as [[]|H]. exact H.
  - rewrite handle_events_cons. apply IH.
    destruct H as [[->|H]|H].
    + right. reflexivity.
    + now left.
    + right. destruct ev as [|[|]|]; cbn; try exact H; try reflexivity.
      destruct (game_active g); cbn; exact H.
Qed.

Lemma game_logic_running (now e : Z) (g : Game) :
  running (game_logic now e g) = running g.
Proof.
  destruct (game_active g) eqn:Ha.
  - now rewrite (game_logic_active _ _ _ Ha).
  - now rewrite (game_logic_idle _ _ _ Ha).
Qed.

(** X6.  A QUIT event ends the loop with the frame it arrives in,
    whatever else the queue holds: the events after it are still
    handled and the game logic of that frame still runs, and no later
    frame is processed. *)
Theorem quit_ends_loop_after_frame (f : Frame) (rest : list Frame) (g : Game) :
  running g = true -> In QUIT (events f) ->
  main_loop (f :: rest) g = frame f g /\
  running (frame f g) = false /\
  frame f g
  = game_logic (ticks_at_logic f) (entropy f)
               (handle_events (ticks_at_events f) (events f) g).
Proof.
  intros Hr Hq.
  assert (Hstop : running (frame f g) = false).
  { unfold frame. rewrite game_logic_running.
    apply handle_events_quit. now left. }
  repeat split; [|exact Hstop].
  cbn [main_loop]. rewrite Hr.
  destruct rest as [|f' rest]; cbn [main_loop]; [reflexivity|].
  now rewrite Hstop.
Qed.

Lemma quit_ends_loop_witness :
  running (initial 0) = true /\
  main_loop (mkFrame [KEYDOWN K_SPACE; QUIT; KEYDOWN K_SPACE] 5 5 0
               :: [still 9 0; press 9 0]) (initial 0)
  = frame (mkFrame [KEYDOWN K_SPACE; QUIT; KEYDOWN K_SPACE] 5 5 0) (initial 0).
Proof.
  split; [reflexivity|].
  apply (quit_ends_loop_after_frame
           (mkFrame [KEYDOWN K_SPACE; QUIT; KEYDOWN K_SPACE] 5 5 0)
           [still 9 0; press 9 0] (initial 0)).
  - reflexivity.
  - cbn. right. left. reflexivity.
Defined.

(** ** What holds while the game is active *)

Lemma check_collision_scored (r r' : Rect) (ps : list Pipe) :
  check_collision r (map (score_one r') ps) = check_collision r ps.
Proof.
  pose proof (check_collision_iff r (map (score_one r') ps)) as H1.
  pose proof (check_collision_iff r ps) as H2.
  rewrite (in_scored_boxes r' ps
             (fun t b => colliderect r t = true \/ colliderect r b = true))
    in H1.
  destruct (check_collision r (map (score_one r') ps)),
           (check_collision r ps); try reflexivity.
  - symmetry. apply H2. apply H1. reflexivity.
  - apply H1. apply H2. reflexivity.
Qed.

(** A frame leaves the game active only if its collision test failed. *)
Lemma frame_clear (f : Frame) (g : Game) :
  game_active (frame f g) = true ->
  check_collision (bird_rect_at (bird_y (frame f g))) (pipes (frame f g))
  = false.
Proof.
  unfold frame.
  set (g1 := handle_events (ticks_at_events f) (events f) g).
  destruct (game_active g1) eqn:Ha.
  - rewrite (game_logic_active _ _ g1 Ha). cbn [game_active bird_y pipes].
    rewrite check_collision_scored. intro H.
    now apply negb_true_iff in H.
  - rewrite (game_logic_idle _ _ g1 Ha). congruence.
Qed.

Lemma main_loop_keeps (P : Game -> Prop) :
  (forall f g, P g -> P (frame f g)) ->
  forall frames g, P g -> P (main_loop frames g).
Proof.
  intros Hstep frames. induction frames as [|f frames IH]; intros g H.
  - exact H.
  - cbn [main_loop]. destruct (running g); [|exact H].
    apply IH. now apply Hstep.
Qed.

Lemma reachable_clear (g : Game) :
  reachable g -> game_active g = true ->
  check_collision (bird_rect_at (bird_y g)) (pipes g) = false.
Proof.
  intros (t0 & frames & ->).
  apply (main_loop_keeps
           (fun g => game_active g = true ->
                     check_collision (bird_rect_at (bird_y g)) (pipes g) = false)).
  - intros f g _. apply frame_clear.
  - discriminate.
Qed.

(** X7.  In every state the loop reaches with the game active, the
    bird's box is above the ground and collides with neither box of any
    pair in the collection: the game is active only while the bird
    touches nothing. *)
Theorem active_bird_touches_nothing (g : Game) :
  reachable g -> game_active g = true ->
  rect_bottom (bird_rect_at (bird_y g)) < ground_y /\
  forall pipe, In pipe (pipes g) ->
    colliderect (bird_rect_at (bird_y g)) (top_pipe_rect pipe) = false /\
    colliderect (bird_rect_at (bird_y g)) (bottom_pipe_rect pipe) = false.
Proof.
  intros HR Ha. pose proof (reachable_clear g HR Ha) as C.
  pose proof (check_collision_iff (bird_rect_at (bird_y g)) (pipes g)) as I.
  split.
  - destruct (Z_lt_ge_dec (rect_bottom (bird_rect_at (bird_y g))) ground_y)
      as [L|L]; [exact L|].
    assert (check_collision (bird_rect_at (bird_y g)) (pipes g) = true)
      by (apply I; now left).
    congruence.
  - intros pipe Hin.
    destruct (colliderect (bird_rect_at (bird_y g)) (top_pipe_rect pipe)) eqn:Et;
      [|destruct (colliderect (bird_rect_at (bird_y g)) (bottom_pipe_rect pipe))
          eqn:Eb; [|now split]];
      assert (check_collision (bird_rect_at (bird_y g)) (pipes g) = true)
        by (apply I; right; exists pipe; tauto);
      congruence.
Qed.

Lemma active_bird_touches_nothing_witness :
  reachable (main_loop two_pipes_run (initial 0)) /\
  game_active (main_loop two_pipes_run (initial 0)) = true /\
  rect_bottom (bird_rect_at (bird_y (main_loop two_pipes_run (initial 0))))
  < ground_y.
Proof.
  assert (R : reachable (main_loop two_pipes_run (initial 0)))
    by (exists 0, two_pipes_run; reflexivity).
  split; [exact R|]. split; [reflexivity|].
  apply (active_bird_touches_nothing _ R). reflexivity.
Defined.

(** X8.  In every state the loop reaches the bird's position lies in
    0..700 and its velocity in -28..28, and while the game is active the
    position is below 670. *)
Theorem bird_stays_in_bounds (g : Game) :
  reachable g ->
  (0 <= bird_y g)%Q /\ (bird_y g <= 700)%Q /\
  (-28 <= bird_velocity g)%Q /\ (bird_velocity g <= 28)%Q /\
  (game_active g = true -> (bird_y g < 670)%Q).
Proof.
  intro HR. destruct (half_integral_values g HR)
    as (Y & V & Hy & Hv & HY & HV & Hact).
  rewrite Hy, Hv. unfold Qle, Qlt. cbn [Qnum Qden].
  repeat split; try lia.
  intro Ha. destruct (Hact Ha) as [L _]. lia.
Qed.

Lemma bird_stays_in_bounds_witness :
  reachable (main_loop drop_run (initial 0)) /\
  (bird_y (main_loop drop_run (initial 0)) <= 700)%Q.
Proof.
  assert (R : reachable (main_loop drop_run (initial 0)))
    by (exists 0, drop_run; reflexivity).
  split; [exact R|].
  apply (bird_stays_in_bounds _ R).
Defined.

(** ** The size of the collection *)

Lemma in_frame_pipes (f : Frame) (g : Game) (q : Pipe) :
  In q (pipes (frame f g)) ->
  In q (pipes g) \/
  exists p, (In p (pipes g) \/ p = new_pipe (entropy f)) /\
            on_screen (shift_pipe p) = true /\
            pipe_x q = pipe_x p - PIPE_SPEED /\
            top_height q = top_height p /\
            bottom_height q = bottom_height p.
Proof.
  unfold frame.
  set (g1 := handle_events (ticks_at_events f) (events f) g).
  destruct (handle_events_run (ticks_at_events f) (events f) g)
    as (_ & Hp & _). fold g1 in Hp.
  assert (Hsub : forall p, In p (pipes g1) -> In p (pipes g)).
  { intros p Hin. rewrite Hp in Hin.
    destruct (restarted (events f) g); [contradiction | exact Hin]. }
  destruct (game_active g1) eqn:Ha.
  - rewrite (game_logic_active _ _ g1 Ha). cbn [pipes]. intro Hin.
    apply in_map_iff in Hin. destruct Hin as (q' & <- & Hin).
    unfold move_pipes in Hin. apply filter_In in Hin.
    destruct Hin as [Hin Hon]. apply in_map_iff in Hin.
    destruct Hin as (p & <- & Hin).
    right. exists p. split.
    + unfold spawn_stage, create_pipe in Hin.
      destruct (spawn_due (ticks_at_logic f) g1); [|left; now apply Hsub].
      apply in_app_or in Hin. destruct Hin as [Hin|[<-|[]]];
        [left; now apply Hsub | now right].
    + split; [exact Hon|].
      unfold score_one. destruct (scores_now _ _); now repeat split.
  - rewrite (game_logic_idle _ _ g1 Ha). intro Hin. left. now apply Hsub.
Qed.

Lemma grid_reachable (g : Game) : reachable g -> Forall on_grid (pipes g).
Proof.
  intros (t0 & frames & ->).
  apply (main_loop_keeps (fun g => Forall on_grid (pipes g))).
  - intros f g H. rewrite Forall_forall in *. intros q Hin.
    apply in_frame_pipes in Hin.
    destruct Hin as [Hin|(p & Hp & _ & Hx & _)]; [now apply H|].
    assert (Gp : on_grid p).
    { destruct Hp as [Hp| ->]; [now apply H | reflexivity]. }
    unfold on_grid, PIPE_SPEED in *. rewrite Hx.
    rewrite Zminus_mod, Gp. reflexivity.
  - constructor.
Qed.

Lemma sorted_by_x_reachable (g : Game) :
  reachable g ->
  StronglySorted (fun p q => pipe_x p < pipe_x q) (pipes g) /\
  Forall (fun p => -PIPE_WIDTH < pipe_x p <= SCREEN_WIDTH - PIPE_SPEED /\
                   passed p = (pipe_x p + PIPE_WIDTH <? bird_x)) (pipes g) /\
  0 <= score g.
Proof.
  intro HR. apply reachable_is_traced in HR. destruct HR as (T & HT & <-).
  pose proof (Inv_reachable T HT) as I.
  rewrite <- (inv_erase T I). repeat split.
  - generalize (inv_order T I). apply StronglySorted_map.
    intros a b [_ L]. exact L.
  - apply Forall_forall. intros p Hin. apply in_map_iff in Hin.
    destruct Hin as ([t p'] & E & Hin). cbn in E. subst p'.
    destruct (inv_pipe T I t p Hin) as (H1 & H2 & H3 & _).
    split; [lia|].
    destruct (Z.ltb_spec (pipe_x p + PIPE_WIDTH) bird_x) as [L|L];
      destruct (passed p); intuition (discriminate || lia).
  - rewrite (inv_score T I). lia.
Qed.

Lemma sorted_grid_length (l : list Z) (lo hi : Z) :
  StronglySorted Z.lt l ->
  Forall (fun x => lo <= x <= hi /\ x mod 3 = 0) l ->
  3 * Z.of_nat (length l) <= Z.max 0 (hi - lo + 3).
Proof.
  intro Hs. revert lo. induction Hs as [|a l Hs IH Ha]; intros lo Hall.
  - cbn. lia.
  - inversion Hall as [|? ? [Hr Hm] Hl]; subst.
    rewrite Forall_forall in Ha, Hl.
    assert (Hl' : Forall (fun x => a + 3 <= x <= hi /\ x mod 3 = 0) l).
    { apply Forall_forall. intros b Hb.
      destruct (Hl b Hb) as [Hb1 Hb2]. specialize (Ha b Hb).
      split; [|exact Hb2].
      pose proof (Z.div_mod a 3 ltac:(lia)).
      pose proof (Z.div_mod b 3 ltac:(lia)). lia. }
    specialize (IH (a + 3) Hl'). cbn [length]. lia.
Qed.

(** X9.  "Remove pipes that have moved off screen to save memory": in
    every state the loop reaches the collection holds at most 226 pairs,
    however fast the clock lets them spawn. *)
Theorem at_most_226_pipes (g : Game) :
  reachable g -> (length (pipes g) <= 226)%nat.
Proof.
  intro HR.
  destruct (sorted_by_x_reachable g HR) as (Hs & Hb & _).
  pose proof (grid_reachable g HR) as Hg.
  assert (L : 3 * Z.of_nat (length (map pipe_x (pipes g)))
              <= Z.max 0 (597 - -78 + 3)).
  { apply sorted_grid_length.
    - revert Hs. apply StronglySorted_map. intros a b L. exact L.
    - apply Forall_map. rewrite Forall_forall in *. intros p Hin.
      destruct (Hb p Hin) as [[H1 H2] _]. specialize (Hg p Hin).
      unfold on_grid, PIPE_SPEED, PIPE_WIDTH, SCREEN_WIDTH in *.
      split; [|exact Hg].
      pose proof (Z.div_mod (pipe_x p) 3 ltac:(lia)). lia. }
  rewrite length_map in L. lia.
Qed.

Lemma at_most_226_pipes_witness :
  reachable (main_loop two_pipes_run (initial 0)) /\
  (length (pipes (main_loop two_pipes_run (initial 0))) <= 226)%nat.
Proof.
  assert (R : reachable (main_loop two_pipes_run (initial 0)))
    by (exists 0, two_pipes_run; reflexivity).
  split; [exact R|].
  apply (at_most_226_pipes _ R).
Defined.

(** ** How the score moves *)

Lemma same_x_sorted_short (l : list Pipe) (c : Z) :
  StronglySorted (fun p q => pipe_x p < pipe_x q) l ->
  Forall (fun p => pipe_x p = c) l -> (length l <= 1)%nat.
Proof.
  intros Hs Hc. destruct l as [|a [|b l]]; cbn; try lia.
  exfalso. apply StronglySorted_inv in Hs. destruct Hs as [_ Ha].
  inversion Ha as [|? ? Hab _]; subst.
  inversion Hc as [|? ? Ea Hc']; subst.
  inversion Hc' as [|? ? Eb _]; subst. lia.
Qed.

(** The pairs [update_score] meets, when the collection was in order
    before: still in order. *)
Lemma moved_sorted (now e : Z) (g : Game) :
  StronglySorted (fun p q => pipe_x p < pipe_x q) (pipes g) ->
  Forall (fun p => pipe_x p <= SCREEN_WIDTH - PIPE_SPEED) (pipes g) ->
  StronglySorted (fun p q => pipe_x p < pipe_x q)
                 (move_pipes (spawn_stage now e g)).
Proof.
  intros Hs Hb. unfold move_pipes. apply StronglySorted_filter.
  apply (StronglySorted_map (fun p q => pipe_x p < pipe_x q)).
  - intros a b L. cbn. lia.
  - unfold spawn_stage, create_pipe.
    destruct (spawn_due now g); [|exact Hs].
    apply StronglySorted_snoc; [exact Hs|].
    revert Hb. apply Forall_impl. intros p Hp.
    change (pipe_x (new_pipe e)) with SCREEN_WIDTH.
    unfold PIPE_SPEED in Hp. lia.
Qed.

(** X10.  From a state the loop reaches, one frame changes the score by
    at most one point: the score is never negative, a frame without a
    (re)start leaves it or adds one, and a frame with a (re)start leaves
    it at 0. *)
Theorem score_moves_by_one (f : Frame) (g : Game) :
  reachable g ->
  0 <= score g /\
  (restarted (events f) g = false ->
   score g <= score (frame f g) <= score g + 1) /\
  (restarted (events f) g = true -> score (frame f g) = 0).
Proof.
  intro HR.
  destruct (sorted_by_x_reachable g HR) as (Hs & Hb & H0).
  pose proof (grid_reachable g HR) as Hg.
  rewrite Forall_forall in Hb, Hg.
  split; [exact H0|].
  unfold frame.
  set (g1 := handle_events (ticks_at_events f) (events f) g).
  destruct (handle_events_run (ticks_at_events f) (events f) g)
    as (_ & Hp & Hsc & _). fold g1 in Hp, Hsc.
  destruct (game_active g1) eqn:Ha;
    [|rewrite (game_logic_idle _ _ g1 Ha), Hsc;
      split; intro Hr; rewrite Hr; lia].
  rewrite (game_logic_active _ _ g1 Ha). cbn [score]. rewrite Hsc.
  set (y := fst (fall (bird_y g1) (bird_velocity g1))).
  set (now := ticks_at_logic f). set (e := entropy f).
  split; intro Hr; rewrite Hr in *.
  - (* no restart: the pairs are those of [g] *)
    assert (S1 : StronglySorted (fun p q => pipe_x p < pipe_x q)
                   (move_pipes (spawn_stage now e g1))).
    { apply moved_sorted; rewrite Hp; [exact Hs|].
      apply Forall_forall. intros p Hin. destruct (Hb p Hin) as [[_ H] _].
      exact H. }
    assert (S2 : Forall (fun p => pipe_x p = 18)
                   (filter (scores_now (bird_rect_at y))
                           (move_pipes (spawn_stage now e g1)))).
    { apply Forall_forall. intros q Hq. apply filter_In in Hq.
      destruct Hq as [Hq Hsn]. unfold move_pipes in Hq.
      apply filter_In in Hq. destruct Hq as [Hq _].
      apply in_map_iff in Hq. destruct Hq as (p & <- & Hin).
      unfold scores_now in Hsn.
      change (rect_left (bird_rect_at y)) with bird_x in Hsn.
      apply andb_true_iff in Hsn. destruct Hsn as [Hx Hps].
      apply Z.ltb_lt in Hx. apply negb_true_iff in Hps.
      cbn [shift_pipe pipe_x passed] in *.
      unfold spawn_stage, create_pipe in Hin. rewrite Hp in Hin.
      assert (Hold : In p (pipes g) \/ p = new_pipe e).
      { destruct (spawn_due now g1); [|now left].
        apply in_app_or in Hin. destruct Hin as [Hin|[<-|[]]]; auto. }
      destruct Hold as [Hold| ->].
      - destruct (Hb p Hold) as [_ Hpass]. specialize (Hg p Hold).
        rewrite Hps in Hpass. symmetry in Hpass. apply Z.ltb_ge in Hpass.
        unfold on_grid, PIPE_SPEED, PIPE_WIDTH, bird_x in *.
        pose proof (Z.div_mod (pipe_x p) 3 ltac:(lia)). lia.
      - change (pipe_x (new_pipe e)) with 600 in Hx.
        unfold PIPE_SPEED, PIPE_WIDTH, bird_x in Hx. lia. }
    pose proof (same_x_sorted_short _ 18 (StronglySorted_filter _ _ _ S1) S2).
    lia.
  - (* restart: no pair is old enough to score *)
    replace (filter (scores_now (bird_rect_at y))
                    (move_pipes (spawn_stage now e g1))) with (@nil Pipe);
      [cbn; lia|].
    unfold spawn_stage, create_pipe. rewrite Hp.
    destruct (spawn_due now g1); reflexivity.
Qed.

Lemma score_moves_by_one_witness :
  reachable (main_loop two_pipes_run (initial 0)) /\
  0 <= score (main_loop two_pipes_run (initial 0)).
Proof.
  assert (R : reachable (main_loop two_pipes_run (initial 0)))
    by (exists 0, two_pipes_run; reflexivity).
  split; [exact R|].
  exact (proj1 (score_moves_by_one (still 4000 0) _ R)).
Defined.

(** ** The spawn timer *)

Lemma move_pipes_length (ps : list Pipe) :
  (length (move_pipes ps) <= length ps)%nat.
Proof.
  unfold move_pipes.
  rewrite <- (length_map shift_pipe ps). apply filter_length_le.
Qed.

Lemma frame_pipes_length (f : Frame) (g : Game) :
  let g1 := handle_events (ticks_at_events f) (events f) g in
  (length (pipes (frame f g))
   <= length (pipes g1)
      + (if game_active g1 && spawn_due (ticks_at_logic f) g1 then 1 else 0))%nat
  /\ (length (pipes g1) <= length (pipes g))%nat.
Proof.
  intro g1. split.
  - unfold frame. fold g1. destruct (game_active g1) eqn:Ha.
    + rewrite (game_logic_active _ _ g1 Ha). cbn [pipes andb].
      rewrite length_map.
      etransitivity; [apply move_pipes_length|].
      unfold spawn_stage, create_pipe.
      destruct (spawn_due (ticks_at_logic f) g1);
        [rewrite length_app; cbn; lia | lia].
    + rewrite (game_logic_idle _ _ g1 Ha). cbn. lia.
  - destruct (handle_events_run (ticks_at_events f) (events f) g)
      as (_ & Hp & _). fold g1 in Hp. rewrite Hp.
    destruct (restarted (events f) g); cbn; lia.
Qed.

(** X11.  A frame adds at most one pair to the collection, and after a
    frame whose game logic spawned a pair, a frame without SPACE whose
    clock reading is at most 1500 ms later adds none: spawns are more
    than [PIPE_SPAWN_INTERVAL] apart on the clock. *)
Theorem spawns_are_spaced (f f' : Frame) (g : Game) :
  let g1 := handle_events (ticks_at_events f) (events f) g in
  (length (pipes (frame f g)) <= length (pipes g) + 1)%nat /\
  (game_active g1 = true -> spawn_due (ticks_at_logic f) g1 = true ->
   existsb is_space (events f') = false ->
   ticks_at_logic f' <= ticks_at_logic f + PIPE_SPAWN_INTERVAL ->
   (length (pipes (frame f' (frame f g))) <= length (pipes (frame f g)))%nat).
Proof.
  intro g1. split.
  - destruct (frame_pipes_length f g) as [H1 H2]. fold g1 in H1, H2.
    destruct (game_active g1 && spawn_due (ticks_at_logic f) g1); lia.
  - intros Ha Hsp Hns Ht.
    destruct (frame_pipes_length f' (frame f g)) as [H1 H2].
    destruct (handle_events_no_space (ticks_at_events f') (events f')
                (frame f g) Hns) as (_ & _ & _ & _ & _ & Hl).
    set (g2 := handle_events (ticks_at_events f') (events f') (frame f g)) in *.
    assert (Hlast : last_pipe_spawn_time (frame f g) = ticks_at_logic f).
    { unfold frame. fold g1. rewrite (game_logic_active _ _ g1 Ha).
      cbn [last_pipe_spawn_time]. now rewrite Hsp. }
    assert (Hno : spawn_due (ticks_at_logic f') g2 = false).
    { unfold spawn_due. rewrite Hl, Hlast.
      rewrite Z.gtb_ltb. apply Z.ltb_ge. lia. }
    rewrite Hno, andb_false_r in H1. lia.
Qed.

Lemma spawns_are_spaced_witness :
  game_active (handle_events 2000 [] (frame (press 0 0) (initial 0))) = true /\
  (length (pipes (frame (still 3500 7)
                    (frame (still 2000 0) (frame (press 0 0) (initial 0)))))
   <= length (pipes (frame (still 2000 0) (frame (press 0 0) (initial 0)))))%nat.
Proof.
  split; [reflexivity|].
  apply (spawns_are_spaced (still 2000 0) (still 3500 7)
           (frame (press 0 0) (initial 0))).
  - reflexivity.
  - reflexivity.
  - reflexivity.
  - discriminate.
Defined.

(** ** The frame of a (re)start *)

Lemma handle_events_velocity (t : Z) (evs : list Event) (g : Game) :
  game_active g = true ->
  bird_velocity (handle_events t evs g) = bird_velocity g \/
  bird_velocity (handle_events t evs g) = inject_Z jump_power.
Proof.
  revert g. induction evs as [|ev evs IH]; intros g Ha; [now left|].
  rewrite handle_events_cons.
  assert (H : game_active (handle_event t ev g) = true /\
              (bird_velocity (handle_event t ev g) = bird_velocity g \/
               bird_velocity (handle_event t ev g) = inject_Z jump_power)).
  { destruct ev as [|[|]|]; cbn [handle_event]; rewrite ?Ha; cbn; auto. }
  destruct H as [Ha' Hv'].
  destruct (IH _ Ha') as [E|E]; rewrite E; auto.
Qed.

Lemma handle_events_restart (t : Z) (evs : list Event) (g : Game) :
  restarted evs g = true ->
  bird_y (handle_events t evs g) = inject_Z (SCREEN_HEIGHT / 2) /\
  (bird_velocity (handle_events t evs g) = 0%Q \/
   bird_velocity (handle_events t evs g) = inject_Z jump_power).
Proof.
  unfold restarted. revert g. induction evs as [|ev evs IH]; intros g H.
  - cbn in H. now rewrite andb_false_r in H.
  - apply andb_true_iff in H. destruct H as [Ha Hs].
    apply negb_true_iff in Ha. rewrite handle_events_cons.
    destruct (is_space ev) eqn:Hev.
    + destruct ev as [|[|]|]; try discriminate. cbn [handle_event].
      rewrite Ha. cbn [negb].
      match goal with |- context [handle_events t evs ?s] => set (g' := s) end.
      destruct (handle_events_active t evs g' eq_refl) as (_ & Ey & _).
      split; [exact Ey|].
      destruct (handle_events_velocity t evs g' eq_refl) as [E|E]; auto.
    + cbn [existsb] in Hs. rewrite Hev in Hs. cbn [orb] in Hs.
      apply IH. apply andb_true_iff. split; [|exact Hs].
      apply negb_true_iff.
      destruct ev as [|[|]|]; cbn in *; try exact Ha; discriminate.
Qed.

(** X12.  A frame whose events (re)start the game always leaves it
    active with score 0, at most one pair, and the bird half a pixel
    below the middle of the screen (400.5), or at 391.5 when a further
    SPACE of the same queue made it jump: the run cannot end in the
    frame that starts it. *)
Theorem restart_frame_is_safe (f : Frame) (g : Game) :
  restarted (events f) g = true ->
  game_active (frame f g) = true /\ score (frame f g) = 0 /\
  (length (pipes (frame f g)) <= 1)%nat /\
  ((bird_y (frame f g) == 801 # 2)%Q \/ (bird_y (frame f g) == 783 # 2)%Q).
Proof.
  intro Hr.
  destruct (handle_events_run (ticks_at_events f) (events f) g)
    as (Ha & Hp & Hs & _).
  destruct (handle_events_restart (ticks_at_events f) (events f) g Hr)
    as (Hy & Hv).
  rewrite Hr in Hp, Hs.
  assert (Hact : game_active
                   (handle_events (ticks_at_events f) (events f) g) = true).
  { rewrite Ha. unfold restarted in Hr. apply andb_true_iff in Hr.
    destruct Hr as [_ ->]. apply orb_true_r. }
  unfold frame.
  set (g1 := handle_events (ticks_at_events f) (events f) g) in *.
  rewrite (game_logic_active _ _ g1 Hact).
  cbn [game_active score pipes bird_y]. rewrite Hs, Hy.
  set (met := move_pipes (spawn_stage (ticks_at_logic f) (entropy f) g1)).
  assert (Hmet : met = [] \/ met = [shift_pipe (new_pipe (entropy f))]).
  { unfold met, spawn_stage, create_pipe. rewrite Hp.
    destruct (spawn_due (ticks_at_logic f) g1); [right|left]; reflexivity. }
  assert (Hclear : forall y, Qtruncate y + bird_height < ground_y ->
                             check_collision (bird_rect_at y) met = false).
  { intros y Hb. unfold check_collision.
    replace (rect_bottom (bird_rect_at y) >=? ground_y) with false
      by (symmetry; rewrite Z.geb_leb; apply Z.leb_gt; exact Hb).
    destruct Hmet as [-> | ->]; [reflexivity|].
    cbn [pipe_collision]. unfold top_pipe_rect, bottom_pipe_rect.
    rewrite !no_overlap_no_hit by (right; cbn; discriminate).
    reflexivity. }
  assert (Hscore : filter (scores_now
                     (bird_rect_at (fst (fall (inject_Z (SCREEN_HEIGHT / 2))
                                              (bird_velocity g1))))) met = []).
  { destruct Hmet as [-> | ->]; reflexivity. }
  rewrite Hscore, length_map.
  assert (Hlen : (length met <= 1)%nat)
    by (destruct Hmet as [-> | ->]; cbn; lia).
  destruct Hv as [-> | ->].
  - rewrite Hclear by (vm_compute; reflexivity).
    repeat split; try assumption. left. reflexivity.
  - rewrite Hclear by (vm_compute; reflexivity).
    repeat split; try assumption. right. reflexivity.
Qed.

Lemma restart_frame_is_safe_witness :
  restarted (events (press 0 0)) (main_loop drop_run (initial 0)) = true /\
  game_active (frame (press 0 0) (main_loop drop_run (initial 0))) = true.
Proof.
  split; [vm_compute; reflexivity|].
  apply (restart_frame_is_safe (press 0 0) (main_loop drop_run (initial 0))).
  vm_compute; reflexivity.
Defined.

(** ** What is put on the display *)

Lemma paint_refines_draw (g : Game) : paint g = flat_map render (draw g).
Proof.
  unfold paint, draw.
  destruct (game_active g); [|destruct (score g >? 0)]; cbn;
    rewrite ?app_nil_r; reflexivity.
Qed.

Lemma draw_pipes_boxes (ps : list Pipe) :
  draw_pipes ps
  = flat_map (fun pipe => [Rect_drawn GREEN (top_pipe_rect pipe) 5;
                           Rect_drawn GREEN (bottom_pipe_rect pipe) 5]) ps.
Proof. reflexivity. Qed.

Lemma in_draw_pipes (ps : list Pipe) (c : Color) (r : Rect) (k : Z) :
  In (Rect_drawn c r k) (draw_pipes ps) <->
  c = GREEN /\ k = 5 /\
  exists pipe, In pipe ps /\ (r = top_pipe_rect pipe \/ r = bottom_pipe_rect pipe).
Proof.
  rewrite draw_pipes_boxes, in_flat_map. split.
  - intros (pipe & Hin & [E|[E|[]]]); inversion E; subst;
      repeat split; exists pipe; tauto.
  - intros (-> & -> & pipe & Hin & [-> | ->]); exists pipe;
      (split; [exact Hin|]); [left | right; left]; reflexivity.
Qed.

(** X13.  While the game is active in a state the loop reaches, the
    frame shows the ground, the two boxes of every pair exactly as
    [check_collision] tests them, the bird's box exactly as it was
    tested, and the score; no pipe box shown overlaps the bird's box,
    and neither does the ground. *)
Theorem shown_boxes_are_tested_and_clear (g : Game) :
  reachable g -> game_active g = true ->
  paint g
  = [Fill WHITE; Rect_drawn (100, 200, 50) ground_rect 5]
    ++ flat_map (fun pipe => [Rect_drawn GREEN (top_pipe_rect pipe) 5;
                              Rect_drawn GREEN (bottom_pipe_rect pipe) 5])
                (pipes g)
    ++ [Rect_drawn BLUE (bird_rect_at (bird_y g)) 5;
        Text_blit 74 (str (score g)) BLACK (300, 50)] /\
  (forall r k, In (Rect_drawn GREEN r k) (paint g) ->
               colliderect (bird_rect_at (bird_y g)) r = false) /\
  colliderect (bird_rect_at (bird_y g)) ground_rect = false.
Proof.
  intros HR Ha.
  pose proof (reachable_clear g HR Ha) as C.
  unfold check_collision in C.
  destruct (rect_bottom (bird_rect_at (bird_y g)) >=? ground_y) eqn:B;
    [discriminate|].
  rewrite Z.geb_leb in B. apply Z.leb_gt in B.
  assert (E : paint g
              = [Fill WHITE; Rect_drawn (100, 200, 50) ground_rect 5]
                ++ draw_pipes (pipes g)
                ++ [Rect_drawn BLUE (bird_rect_at (bird_y g)) 5;
                    Text_blit 74 (str (score g)) BLACK (300, 50)]).
  { unfold paint. rewrite Ha. reflexivity. }
  split; [exact E|]. split.
  - intros r k Hin. rewrite E in Hin.
    apply in_app_or in Hin. destruct Hin as [[Hin|[Hin|[]]]|Hin];
      try discriminate.
    apply in_app_or in Hin. destruct Hin as [Hin|[Hin|[Hin|[]]]];
      try discriminate.
    apply in_draw_pipes in Hin. destruct Hin as (_ & _ & pipe & Hin & Hr).
    assert (N : colliderect (bird_rect_at (bird_y g)) (top_pipe_rect pipe)
                || colliderect (bird_rect_at (bird_y g)) (bottom_pipe_rect pipe)
                = false).
    { destruct (_ || _) eqn:O; [|reflexivity].
      assert (pipe_collision (bird_rect_at (bird_y g)) (pipes g) = true).
      { apply pipe_collision_iff. exists pipe. split; [exact Hin|].
        now apply orb_true_iff. }
      congruence. }
    apply orb_false_iff in N. destruct N as [N1 N2].
    destruct Hr as [-> | ->]; assumption.
  - unfold colliderect, ground_rect, bird_rect_at, rect_bottom in *.
    cbn [rect_x rect_y rect_w rect_h] in *.
    unfold bird_height, ground_y, SCREEN_HEIGHT, GROUND_HEIGHT in *.
    cbn [orb Z.eqb].
    replace (Z.max (Qtruncate (bird_y g)) (Qtruncate (bird_y g) + 30)
             >? Z.min (800 - 100) (800 - 100 + 100)) with false
      by (symmetry; rewrite Z.gtb_ltb; apply Z.ltb_ge; lia).
    apply andb_false_r.
Qed.

Lemma shown_boxes_witness :
  reachable (main_loop two_pipes_run (initial 0)) /\
  game_active (main_loop two_pipes_run (initial 0)) = true /\
  colliderect (bird_rect_at (bird_y (main_loop two_pipes_run (initial 0))))
              ground_rect = false.
Proof.
  assert (R : reachable (main_loop two_pipes_run (initial 0)))
    by (exists 0, two_pipes_run; reflexivity).
  split; [exact R|]. split; [reflexivity|].
  apply (shown_boxes_are_tested_and_clear _ R). reflexivity.
Defined.

Lemma heights_reachable (g : Game) :
  reachable g -> Forall heights_ok (pipes g).
Proof.
  intro HR. apply reachable_is_traced in HR. destruct HR as (T & HT & <-).
  pose proof (Inv_reachable T HT) as I.
  rewrite <- (inv_erase T I). apply Forall_forall. intros p Hin.
  apply in_map_iff in Hin. destruct Hin as ([t p'] & E & Hin).
  cbn in E. subst p'.
  destruct (inv_origin T I t p Hin) as (p0 & H0 & Et & Eb).
  destruct (inv_spawned T I t p0 H0) as [H _].
  unfold heights_ok in *. now rewrite Et, Eb.
Qed.

(** X14.  For every pair of a state the loop reaches, [draw_pipes] draws
    two green boxes of the pipe's width at the pair's x: the top one
    hangs from the top of the screen, the bottom one stands on the
    ground, and the opening between them is exactly [PIPE_GAP] high. *)
Theorem drawn_pair_leaves_the_gap (g : Game) (pipe : Pipe) :
  reachable g -> In pipe (pipes g) ->
  exists top_box bottom_box,
    draw_pipes [pipe] = [Rect_drawn GREEN top_box 5;
                         Rect_drawn GREEN bottom_box 5] /\
    rect_left top_box = pipe_x pipe /\ rect_left bottom_box = pipe_x pipe /\
    rect_w top_box = PIPE_WIDTH /\ rect_w bottom_box = PIPE_WIDTH /\
    rect_top top_box = 0 /\
    rect_bottom top_box + PIPE_GAP = rect_top bottom_box /\
    rect_bottom bottom_box = ground_y /\
    50 <= rect_h top_box /\ 50 <= rect_h bottom_box.
Proof.
  intros HR Hin. pose proof (heights_reachable g HR) as H.
  rewrite Forall_forall in H. destruct (H pipe Hin) as (Hsum & Ht & Hb).
  exists (top_pipe_rect pipe), (bottom_pipe_rect pipe).
  split; [reflexivity|].
  unfold top_pipe_rect, bottom_pipe_rect, rect_left, rect_top, rect_bottom,
    ground_y. cbn [rect_x rect_y rect_w rect_h].
  repeat split; lia.
Qed.

Lemma drawn_pair_witness :
  reachable (main_loop two_pipes_run (initial 0)) /\
  In (mkPipe 597 200 300 false) (pipes (main_loop two_pipes_run (initial 0))) /\
  exists top_box bottom_box,
    draw_pipes [mkPipe 597 200 300 false]
    = [Rect_drawn GREEN top_box 5; Rect_drawn GREEN bottom_box 5] /\
    rect_bottom top_box + PIPE_GAP = rect_top bottom_box.
Proof.
  assert (R : reachable (main_loop two_pipes_run (initial 0)))
    by (exists 0, two_pipes_run; reflexivity).
  assert (I : In (mkPipe 597 200 300 false)
                 (pipes (main_loop two_pipes_run (initial 0))))
    by (vm_compute; right; left; reflexivity).
  split; [exact R|]. split; [exact I|].
  destruct (drawn_pair_leaves_the_gap _ _ R I)
    as (t & b & E & _ & _ & _ & _ & _ & G & _).
  exists t, b. split; assumption.
Defined.

(** X15.  While the game is not active no pipe is drawn, whatever the
    collection holds.  With a positive score the frame is the ground and
    the three texts of the game-over screen, the middle one the final
    score after the label, and the bird is not drawn; otherwise it is
    the ground, the two texts of the start screen and the bird. *)
Theorem idle_screens (g : Game) :
  game_active g = false ->
  (forall r k, ~ In (Rect_drawn GREEN r k) (paint g)) /\
  (score g > 0 ->
   paint g
   = [Fill WHITE; Rect_drawn (100, 200, 50) ground_rect 5;
      Text_blit 74 "GAME OVER"%string BLACK (300, 350);
      Text_blit 50 (String.append "Score: "%string (str (score g))) BLACK (300, 410);
      Text_blit 50 "Press SPACE to Restart"%string BLACK (300, 470)]) /\
  (~ score g > 0 ->
   paint g
   = [Fill WHITE; Rect_drawn (100, 200, 50) ground_rect 5;
      Text_blit 74 "Flappy Biry"%string BLACK (300, 350);
      Text_blit 50 "Press SPACE to Start"%string BLACK (300, 420);
      Rect_drawn BLUE (bird_rect_at (bird_y g)) 5]).
Proof.
  intro Ha. unfold paint. rewrite Ha.
  destruct (Z.gtb_spec (score g) 0) as [L|L].
  - split; [|split; [reflexivity | lia]].
    intros r k Hin. cbn in Hin.
    repeat (destruct Hin as [Hin|Hin]; [discriminate|]). exact Hin.
  - split; [|split; [lia | reflexivity]].
    intros r k Hin. cbn in Hin.
    repeat (destruct Hin as [Hin|Hin]; [discriminate|]). exact Hin.
Qed.

Lemma idle_screens_witness :
  game_active (main_loop drop_run_with_pipe (initial 0)) = false /\
  pipes (main_loop drop_run_with_pipe (initial 0)) <> [] /\
  forall r k,
    ~ In (Rect_drawn GREEN r k) (paint (main_loop drop_run_with_pipe (initial 0))).
Proof.
  split; [vm_compute; reflexivity|].
  split; [vm_compute; discriminate|].
  apply (idle_screens (main_loop drop_run_with_pipe (initial 0))).
  vm_compute; reflexivity.
Defined.

(** ** The arc of a jump *)

Lemma Qltb_compat (p p' q q' : Q) :
  (p == p')%Q -> (q == q')%Q -> Qltb p q = Qltb p' q'.
Proof.
  intros Hp Hq. unfold Qltb. now rewrite Hp, Hq.
Qed.

Lemma inject_succ (n : nat) :
  (inject_Z (Z.of_nat (S n)) == inject_Z (Z.of_nat n) + 1)%Q.
Proof.
  rewrite Nat2Z.inj_succ. unfold Z.succ. rewrite inject_Z_plus. reflexivity.
Qed.

(** Position and velocity after [n] ticks of gravity that never reach
    the clamp at the top. *)
Lemma free_fall (n : nat) (y v : Q) :
  (forall k, (1 <= k <= n)%nat ->
     (0 <= y + inject_Z (Z.of_nat k) * v
           + inject_Z (Z.of_nat k) * (inject_Z (Z.of_nat k) + 1) * (1 # 4))%Q) ->
  (fst (fall_times n (y, v))
   == y + inject_Z (Z.of_nat n) * v
      + inject_Z (Z.of_nat n) * (inject_Z (Z.of_nat n) + 1) * (1 # 4))%Q /\
  (snd (fall_times n (y, v)) == v + inject_Z (Z.of_nat n) * (1 # 2))%Q.
Proof.
  induction n as [|n IH]; intro Hpos.
  - change (fall_times 0 (y, v)) with (y, v). cbn [fst snd Z.of_nat].
    split; ring.
  - destruct IH as [Ey Ev]; [intros k Hk; apply Hpos; lia|].
    change (fall_times (S n) (y, v))
      with (fall (fst (fall_times n (y, v))) (snd (fall_times n (y, v)))).
    set (y' := fst (fall_times n (y, v))) in *.
    set (v' := snd (fall_times n (y, v))) in *.
    assert (Enext : (y' + (v' + gravity)
                     == y + inject_Z (Z.of_nat (S n)) * v
                        + inject_Z (Z.of_nat (S n))
                          * (inject_Z (Z.of_nat (S n)) + 1) * (1 # 4))%Q).
    { rewrite Ey, Ev, inject_succ. unfold gravity. ring. }
    destruct (fall_cases y' v') as [[Hneg E]|[_ E]]; rewrite E; cbn [fst snd].
    + exfalso. rewrite Enext in Hneg.
      apply (Qlt_not_le _ _ Hneg). apply Hpos. lia.
    + split; [exact Enext|].
      rewrite Ev, inject_succ. unfold gravity. ring.
Qed.

Lemma arc_height (y : Q) (k : Z) :
  (y + inject_Z k * inject_Z jump_power
   + inject_Z k * (inject_Z k + 1) * (1 # 4)
   == y - (153 # 2) + inject_Z ((k - 17) * (k - 18)) * (1 # 4))%Q.
Proof.
  rewrite inject_Z_mult. unfold Zminus.
  rewrite !inject_Z_plus, !inject_Z_opp. unfold jump_power.
  change (inject_Z 17) with (17 # 1)%Q. change (inject_Z 18) with (18 # 1)%Q.
  change (inject_Z (-9)) with (-9 # 1)%Q. ring.
Qed.

(** X16.  A jump from a position of at least 76.5 (so that the top is
    not reached) lifts the bird by at most 76.5 pixels: in the ticks
    after the key press the position never gets above the start less
    76.5, which it reaches on the 17th tick, and the velocity after n
    ticks is -9 + n/2. *)
Theorem jump_lifts_76_and_a_half (y : Q) (n : nat) :
  (153 # 2 <= y)%Q ->
  (y - (153 # 2) <= fst (fall_times n (y, inject_Z jump_power)))%Q /\
  (fst (fall_times 17 (y, inject_Z jump_power)) == y - (153 # 2))%Q /\
  (snd (fall_times n (y, inject_Z jump_power))
   == inject_Z jump_power + inject_Z (Z.of_nat n) * (1 # 2))%Q.
Proof.
  intro Hy.
  assert (Hpos : forall k : nat,
            (y - (153 # 2)
             <= y + inject_Z (Z.of_nat k) * inject_Z jump_power
                + inject_Z (Z.of_nat k) * (inject_Z (Z.of_nat k) + 1) * (1 # 4))%Q).
  { intro k. rewrite arc_height.
    assert (0 <= (Z.of_nat k - 17) * (Z.of_nat k - 18))
      by (destruct (Z_le_gt_dec (Z.of_nat k) 17); nia).
    assert (Q0 : (0 <= inject_Z ((Z.of_nat k - 17) * (Z.of_nat k - 18)))%Q)
      by (change 0%Q with (inject_Z 0); now rewrite <- Zle_Qle).
    lra. }
  assert (Hfree : forall m k : nat, (1 <= k <= m)%nat ->
            (0 <= y + inject_Z (Z.of_nat k) * inject_Z jump_power
                  + inject_Z (Z.of_nat k) * (inject_Z (Z.of_nat k) + 1) * (1 # 4))%Q).
  { intros m k _. specialize (Hpos k). lra. }
  destruct (free_fall n y (inject_Z jump_power) (Hfree n)) as [Ey Ev].
  destruct (free_fall 17 y (inject_Z jump_power) (Hfree 17%nat)) as [Ey17 _].
  split; [rewrite Ey; apply Hpos|]. split; [|exact Ev].
  rewrite Ey17, arc_height. cbn. ring.
Qed.

Lemma jump_lifts_witness :
  (153 # 2 <= 400)%Q /\
  (400 - (153 # 2) <= fst (fall_times 30 (400, inject_Z jump_power)))%Q.
Proof.
  split; [discriminate|].
  apply (jump_lifts_76_and_a_half 400 30). discriminate.
Defined.

(** ** The stored boxes against the boxes without bound *)

Lemma roomy_c_int (z : Z) : roomy z -> c_int z = z.
Proof.
  unfold roomy. intro H. apply c_int_id. unfold INT_MIN, INT_MAX. lia.
Qed.

Lemma stored_small (r : Rect) : small_rect r -> stored r = r.
Proof.
  intros (Hx & Hy & Hw & Hh). destruct r as [x y w h].
  unfold stored. cbn [rect_x rect_y rect_w rect_h] in *.
  now rewrite !roomy_c_int.
Qed.

Lemma colliderect_c_small (a b : Rect) :
  small_rect a -> small_rect b -> colliderect_c a b = colliderect a b.
Proof.
  intros (Hax & Hay & Haw & Hah) (Hbx & Hby & Hbw & Hbh).
  unfold colliderect_c, colliderect, roomy in *.
  rewrite !c_int_id by (unfold INT_MIN, INT_MAX; lia). reflexivity.
Qed.

Lemma small_pipe_rects (pipe : Pipe) :
  small_pipe pipe ->
  small_rect (top_pipe_rect pipe) /\ small_rect (bottom_pipe_rect pipe).
Proof.
  intros (Hx & Ht & Hb).
  unfold small_rect, roomy, top_pipe_rect, bottom_pipe_rect.
  cbn [rect_x rect_y rect_w rect_h].
  unfold PIPE_WIDTH, SCREEN_HEIGHT, GROUND_HEIGHT. lia.
Qed.

Lemma check_collision_c_small (r : Rect) (ps : list Pipe) :
  small_rect r -> Forall small_pipe ps ->
  check_collision_c (stored r) ps = check_collision r ps.
Proof.
  intros Hr Hps. rewrite (stored_small r Hr).
  unfold check_collision_c, check_collision, bottom_c, rect_bottom.
  destruct Hr as (Hx & Hy & Hw & Hh). unfold roomy in *.
  rewrite c_int_id by (unfold INT_MIN, INT_MAX; lia).
  destruct (rect_y r + rect_h r >=? ground_y); [reflexivity|].
  induction Hps as [|p ps Hp Hps IH]; [reflexivity|].
  cbn [pipe_collision_c pipe_collision].
  destruct (small_pipe_rects p Hp) as [St Sb].
  rewrite (stored_small _ St), (stored_small _ Sb).
  rewrite !colliderect_c_small
    by (assumption || (unfold small_rect, roomy; tauto)).
  now rewrite IH.
Qed.

(** On every state the loop reaches, a frame computed with the stored
    boxes is the frame computed with the boxes without bound: the
    bird's position stays in 0..700 and the pairs on the screen. *)
Lemma frame_c_reachable (f : Frame) (g : Game) :
  reachable g -> frame_c f g = frame f g.
Proof.
  intro HR. unfold frame_c, frame.
  set (g1 := handle_events (ticks_at_events f) (events f) g).
  destruct (game_active g1) eqn:Ha;
    [|now rewrite (game_logic_c_idle _ _ _ Ha), (game_logic_idle _ _ _ Ha)].
  rewrite (game_logic_c_active _ _ g1 Ha). cbv zeta.
  set (now := ticks_at_logic f). set (e := entropy f).
  (* the bird's box *)
  assert (Hbox : small_rect (bird_rect_at (bird_y (game_logic now e g1)))).
  { destruct (half_integral_logic now e g1
                (half_integral_events _ _ _ (half_integral_values g HR)))
      as (Y & V & Hy & _ & HY & _).
    unfold small_rect, roomy, bird_rect_at.
    cbn [rect_x rect_y rect_w rect_h].
    rewrite (Qtruncate_half Y _ ltac:(lia) Hy).
    pose proof (Z.div_mod Y 2 ltac:(lia)).
    pose proof (Z.mod_pos_bound Y 2 ltac:(lia)).
    unfold bird_x, bird_width, bird_height. lia. }
  (* the pairs *)
  assert (Hold : Forall (fun p => -80 < pipe_x p <= 600 /\
                                  0 <= top_height p <= 450 /\
                                  0 <= bottom_height p <= 450) (pipes g1)).
  { destruct (handle_events_run (ticks_at_events f) (events f) g)
      as (_ & Hp & _). fold g1 in Hp. rewrite Hp.
    destruct (restarted (events f) g); [constructor|].
    destruct (sorted_by_x_reachable g HR) as (_ & Hb & _).
    pose proof (heights_reachable g HR) as Hh.
    rewrite Forall_forall in *. intros p Hin.
    destruct (Hb p Hin) as [Hx _]. destruct (Hh p Hin) as (Hs & Ht & Hbt).
    unfold PIPE_WIDTH, SCREEN_WIDTH, PIPE_SPEED, PIPE_GAP,
      GROUND_HEIGHT, SCREEN_HEIGHT in *. lia. }
  assert (Hmoved : Forall small_pipe (move_pipes (spawn_stage now e g1))).
  { rewrite Forall_forall in *. intros q Hin.
    unfold move_pipes in Hin. apply filter_In in Hin. destruct Hin as [Hin _].
    apply in_map_iff in Hin. destruct Hin as (p & <- & Hin).
    assert (Hp : -80 < pipe_x p <= 600 /\ 0 <= top_height p <= 450 /\
                 0 <= bottom_height p <= 450).
    { unfold spawn_stage, create_pipe in Hin.
      destruct (spawn_due now g1); [|now apply Hold].
      apply in_app_or in Hin. destruct Hin as [Hin|[<-|[]]];
        [now apply Hold|].
      destruct (new_pipe_shape e) as ((Hs & Ht & Hb) & Hx & _).
      rewrite Hx.
      unfold SCREEN_WIDTH, PIPE_GAP, GROUND_HEIGHT, SCREEN_HEIGHT in *. lia. }
    destruct Hp as (Hx & Ht & Hb). unfold small_pipe.
    cbn [shift_pipe pipe_x top_height bottom_height].
    unfold PIPE_SPEED. lia. }
  rewrite (check_collision_c_small _ _ Hbox Hmoved).
  rewrite (game_logic_active now e g1 Ha). reflexivity.
Qed.
